(** * pug: runs, selectable tables and the logger

    A shallow embedding of the Go sources of pug (package [run], the two
    versions of package [table] and package [logging]) together with the
    properties of their specification.

    Conventions of the embedding.
    - A Go [int] is a [Z] within the 64-bit bounds.  Where a sum or a
      difference can leave them (a cursor moved by any number of rows, the
      window of a viewport of any height) the wrap-around is written out
      with [int_wrap]; the indices [SelectRange] computes stay between [-1]
      and the length of a slice wherever the outcome depends on them.  A Go
      [uint] is an [N] whose increment wraps at [2^64].
    - A Go [error] value is an [option error]: [None] is [nil].
    - A Go pointer that may be [nil] is an [option]; dereferencing [None] is
      the run-time panic, written [Panicked] (or [None] for a pure accessor).
    - A Go [map] is a [gmap]; the two-valued lookup [v, ok := m[k]] yields the
      zero value of the value type when [ok] is false.
    - Methods with a pointer receiver take the receiver and return it
      updated; what they do to the outside world (the clock, the file
      system, the log, callbacks) is threaded through a [World]. *)

From Stdlib Require Import ZArith NArith String Ascii List Bool Sorted Lia.
From stdpp Require Import base option list sorting gmap strings fin_maps.
Import ListNotations.

Local Open Scope string_scope.
Local Open Scope Z_scope.
Set Warnings "-register-all".

(** ** Go's [path/filepath] on Unix, for the paths a run derives *)

Module filepath.

Definition Separator : ascii := "/"%char.

(** [strings.Split(path, "/")]: the elements between separators. *)
Fixpoint split (path : string) : list string :=
  match path with
  | EmptyString => [EmptyString]
  | String c rest =>
      if Ascii.eqb c Separator then EmptyString :: split rest
      else match split rest with
           | [] => [String c EmptyString]
           | e :: es => String c e :: es
           end
  end.

Definition rooted (path : string) : bool :=
  match path with
  | String c _ => Ascii.eqb c Separator
  | EmptyString => false
  end.

(** The element rules of [Clean]: drop empty and [.] elements, let an inner
    [..] cancel the element before it, drop a [..] that would climb above
    the root, keep a leading [..] of a relative path.  [out] holds the
    elements kept so far, the innermost first. *)
Fixpoint clean_elems (is_rooted : bool) (out elems : list string) : list string :=
  match elems with
  | [] => out
  | e :: rest =>
      if String.eqb e "" || String.eqb e "." then clean_elems is_rooted out rest
      else if String.eqb e ".." then
        match out with
        | top :: out' =>
            if String.eqb top ".." then clean_elems is_rooted (e :: out) rest
            else clean_elems is_rooted out' rest
        | [] =>
            if is_rooted then clean_elems is_rooted [] rest
            else clean_elems is_rooted [e] rest
        end
      else clean_elems is_rooted (e :: out) rest
  end.

(** [filepath.Clean]: the shortest equivalent path; the empty result is [.]. *)
Definition Clean (path : string) : string :=
  let body := String.concat "/" (rev (clean_elems (rooted path) [] (split path))) in
  let out := if rooted path then String Separator body else body in
  if String.eqb out "" then "." else out.

(** [filepath.Join]: the elements from the first non-empty one on, separated
    by [/] and cleaned; the empty string when every element is empty. *)
Fixpoint Join (elem : list string) : string :=
  match elem with
  | [] => ""
  | e :: rest =>
      if String.eqb e "" then Join rest else Clean (String.concat "/" elem)
  end.

(** The last element of a path. *)
Definition last_elem (path : string) : string := List.last (split path) "".

(** A string that stands for exactly one path element. *)
Definition plain_elem (s : string) : Prop :=
  split s = [s] /\ s <> "" /\ s <> "." /\ s <> "..".

End filepath.

(** ** Package [time]: instants, and a clock that can be read *)

Module time.

(** An instant, as a count of nanoseconds. *)
Definition Time := Z.

End time.

(** Go's [error]: the message of a non-nil error value. *)
Definition error := string.

(** The bounds of Go's 64-bit [int], and what a sum or a difference of two
    [int]s comes to: the result in two's complement. *)
Definition min_int : Z := - 2 ^ 63.
Definition max_int : Z := 2 ^ 63 - 1.
Definition int_wrap (z : Z) : Z := (z + 2 ^ 63) mod 2 ^ 64 - 2 ^ 63.
Arguments int_wrap : simpl never.

(** ** Package [resource] *)

Module resource.

(** Modelled from the spec: the identifier of a resource, which package
    [resource] (absent from the sources) declares; section 3 calls it an
    opaque unique identifier.  Identifiers are drawn from a supply, here
    the next free number. *)
Definition ID := nat.

(** Modelled from the spec: the kind tag of a resource, [enum{Module,
    Workspace, Run, Task, Log, ...}]; the workspace list also names
    [Global]. *)
Inductive kind := Global | Module | Workspace | Run | Task | Log.

(** Modelled from the spec: [Resource], an identifier, a kind tag and an
    optional reference to a parent resource.  [New] is handed a name, which
    is kept beside them. *)
Inductive Resource := mkResource {
  ID_ : ID;
  Kind : kind;
  Name : string;
  Parent : option Resource
}.

(** Modelled from the spec: [New(kind, name, parent)] allocates an
    identifier and records ancestry.  [next] is the supply of identifiers;
    the supply that is left comes back with the resource. *)
Definition New (k : kind) (name : string) (parent : option Resource) (next : ID)
  : Resource * ID :=
  (mkResource next k name parent, S next).

(** The string forms of identifiers and of resources ([String()] of [ID]
    and of [Resource]), which the absent package defines.  The run only
    passes them on, so they stay parameters of the model. *)
Class Strings := {
  ID_String : ID -> string;
  Resource_String : Resource -> string
}.

End resource.

(** ** Package [module] *)

Module module.

(** Modelled from the spec: a module, declared in the absent package
    [module]; for a run it is an opaque parent, a resource. *)
Record Module := { Resource : resource.Resource }.

End module.

(** ** Package [workspace] *)

Module workspace.

(** Modelled from the spec: a workspace, declared in the absent package
    [workspace]: a resource beneath a module, carrying the [AutoApply]
    policy flag consulted when a run is created. *)
Record Workspace := {
  Resource : resource.Resource;
  AutoApply : bool
}.

(** [workspace.PugDirectory(name)]: the scratch directory of the workspace
    of that name, relative to the module's directory.  The function lives
    in the absent part of package [workspace]. *)
Class Layout := { PugDirectory : string -> string }.

End workspace.

(** ** Package [run] *)

Module run.

(** [type Status string]. *)
Definition status := string.

Definition Pending : status := "pending".
Definition Scheduled : status := "scheduled".
Definition PlanQueued : status := "plan queued".
Definition Planning : status := "planning".
Definition Planned : status := "planned".
Definition PlannedAndFinished : status := "planned&finished".
Definition ApplyQueued : status := "apply queued".
Definition Applying : status := "applying".
Definition Applied : status := "applied".
Definition Errored : status := "errored".
Definition Canceled : status := "canceled".
Definition Discarded : status := "discarded".

Definition MaxStatusLen : Z := Z.of_nat (String.length PlannedAndFinished).

(** Modelled from the spec: [Report], the summary of a plan or an apply,
    the counts of resources to add, change and destroy.  Its declaration
    is in the absent part of package [run]. *)
Record Report := { Additions : Z; Changes : Z; Destructions : Z }.

Definition Report_zero : Report :=
  {| Additions := 0; Changes := 0; Destructions := 0 |}.

(** A registered [afterUpdate] function.  The closure itself belongs to
    whoever created the run; the model names it and records each call. *)
Definition Callback := nat.

Record Run := {
  Resource : resource.Resource;
  Created : time.Time;
  Updated : time.Time;
  Status : status;
  AutoApply : bool;
  PlanOnly : bool;
  PlanReport : Report;
  ApplyReport : Report;
  PlanTask : option resource.Resource;
  ApplyTask : option resource.Resource;
  (* Error is non-nil when the run status is Errored *)
  Error : option error;
  (* Call this function after every status update *)
  afterUpdate : option Callback
}.

Record CreateOptions := {
  opt_PlanOnly : bool;
  opt_afterUpdate : option Callback
}.

(** [r.ID()]. *)
Definition ID (r : Run) : resource.ID := resource.ID_ (Resource r).

(** The attributes [LogValue] groups: id, workspace and module. *)
Record LogGroup := { log_id : string; log_workspace : string; log_module : string }.

(** What a run does to the world around it, in the order it happens. *)
Inductive Event :=
| AfterUpdate (cb : Callback) (r : Run)
    (* r.afterUpdate(r), with the run as it was handed over *)
| LogInfo (msg : string) (s : status) (r : option LogGroup).
    (* slog.Info(msg, "status", s, "run", r) *)

(** The world a run lives in: the supply of identifiers, the clock (its
    readings, and how many were taken), the file system (the error that
    stands in the way of making a directory, and the directories that
    exist, each under its cleaned path) and the events so far, the latest
    first. *)
Record World := {
  next_id : resource.ID;
  clock : nat -> time.Time;
  ticks : nat;
  mkdir_error : string -> option error;
  dirs : list string;
  events : list Event
}.

(** [time.Now()]. *)
Definition Now (w : World) : time.Time * World :=
  (clock w (ticks w),
   {| next_id := next_id w; clock := clock w; ticks := S (ticks w);
      mkdir_error := mkdir_error w; dirs := dirs w; events := events w |}).

Definition emit (e : Event) (w : World) : World :=
  {| next_id := next_id w; clock := clock w; ticks := ticks w;
     mkdir_error := mkdir_error w; dirs := dirs w; events := e :: events w |}.

(** The parents [os.MkdirAll] climbs through, the nearest first.  The
    parent of a path is [path[:i+1]], what is left of it without its
    trailing separators and its last element; so the parents are the
    prefixes of the path that end in a separator with an element after it.
    [before] is the prefix read so far and [after_sep] tells whether it ends
    in a separator. *)
Fixpoint parents_from (before : string) (after_sep : bool) (rest : string)
    : list string :=
  match rest with
  | EmptyString => []
  | String c rest' =>
      (parents_from (before +:+ String c EmptyString)
         (Ascii.eqb c filepath.Separator) rest'
       ++ (if after_sep && negb (Ascii.eqb c filepath.Separator)
           then [before] else []))%list
  end.

Definition parents (path : string) : list string := parents_from "" false path.

(** The name a directory goes by in the world: its cleaned path, so that
    a parent handed on with its trailing separator is the directory it
    names.  [newRun] hands [os.MkdirAll] a path that [filepath.Join] has
    cleaned, of which the prefixes are the directories above it.  The empty
    path stays empty: it names no directory, and no file system lets one of
    that name be made. *)
Definition dir_name (path : string) : string :=
  if String.eqb path "" then "" else filepath.Clean path.

(** [os.MkdirAll] of Go's standard library, on a path followed by its
    parents, over the directories [ds] that exist: nothing to do when the
    path is a directory already; otherwise the parent first, giving up on
    its error, and then [os.Mkdir] on the path itself, whose error counts
    unless the directory turns out to be there.  [deny] is the error
    [os.Mkdir] meets on a directory (no permission, a file of that name, a
    disk that cannot be written), [None] where it makes the directory. *)
Fixpoint mkdir_all (deny : string -> option error) (chain : list string)
    (ds : list string) : option error * list string :=
  match chain with
  | [] => (None, ds)
  | path :: above =>
      if bool_decide (dir_name path ∈ ds) then (None, ds)
      else
        match mkdir_all deny above ds with
        | (Some err, ds) => (Some err, ds)
        | (None, ds) =>
            match deny (dir_name path) with
            | None => (None, dir_name path :: ds)
            | Some err =>
                if bool_decide (dir_name path ∈ ds) then (None, ds)
                else (Some err, ds)
            end
        end
  end.

(** [os.MkdirAll(path, 0o755)]: it makes the directory and every parent
    that is missing, makes nothing when the directory exists, and leaves
    behind the parents it made when it fails further down. *)
Definition MkdirAll (path : string) (w : World) : option error * World :=
  let '(err, ds) := mkdir_all (mkdir_error w) (path :: parents path) (dirs w) in
  (err,
   {| next_id := next_id w; clock := clock w; ticks := ticks w;
      mkdir_error := mkdir_error w; dirs := ds; events := events w |}).
Arguments MkdirAll : simpl never.

(** How a call ends: with a value, with an error, or in a panic. *)
Inductive outcome (A : Type) :=
| Ok (a : A)
| Err (e : error)
| Panicked.
Arguments Ok {A} a.
Arguments Err {A} e.
Arguments Panicked {A}.

Section Methods.
Context `{resource.Strings} `{workspace.Layout}.

(** [*r.Parent]. *)
Definition Workspace (r : Run) : option resource.Resource :=
  resource.Parent (Resource r).

(** [r.Parent.String()]. *)
Definition WorkspaceName (r : Run) : option string :=
  resource.Resource_String <$> resource.Parent (Resource r).

(** [*r.Workspace().Parent]. *)
Definition Module (r : Run) : option resource.Resource :=
  Workspace r ≫= resource.Parent.

Definition ModulePath (r : Run) : option string :=
  resource.Resource_String <$> Module r.

(** PugDirectory is the run's pug directory, relative to the module's
    directory. *)
Definition PugDirectory (r : Run) : option string :=
  (fun ws =>
     filepath.Join [workspace.PugDirectory (resource.Resource_String ws);
                    resource.ID_String (ID r)]) <$> Workspace r.

(** PlanPath is the path to the run's plan file, relative to the module's
    directory. *)
Definition PlanPath (r : Run) : option string :=
  (fun dir => filepath.Join [dir; "plan.out"]) <$> PugDirectory r.

Definition IsFinished (r : Run) : bool :=
  if String.eqb (Status r) PlannedAndFinished then true
  else if String.eqb (Status r) Applied then true
  else if String.eqb (Status r) Errored then true
  else if String.eqb (Status r) Canceled then true
  else false.

(** [LogValue]; slog turns a panic inside it into an error value, [None]. *)
Definition LogValue (r : Run) : option LogGroup :=
  ws ← WorkspaceName r;
  md ← ModulePath r;
  Some {| log_id := resource.ID_String (ID r); log_workspace := ws; log_module := md |}.

Definition newRun (mod_ : module.Module) (ws : workspace.Workspace)
    (opts : CreateOptions) (w : World) : outcome Run * World :=
  let '(res, ids) :=
    resource.New resource.Run "" (Some (workspace.Resource ws)) (next_id w) in
  let w := {| next_id := ids; clock := clock w; ticks := ticks w;
              mkdir_error := mkdir_error w; dirs := dirs w; events := events w |} in
  let '(created, w) := Now w in
  let '(updated, w) := Now w in
  let run :=
    {| Resource := res;
       Created := created;
       Updated := updated;
       Status := Pending;
       AutoApply := workspace.AutoApply ws;
       PlanOnly := false;
       PlanReport := Report_zero;
       ApplyReport := Report_zero;
       PlanTask := None;
       ApplyTask := None;
       Error := None;
       afterUpdate := opt_afterUpdate opts |} in
  (* create a dedicated pug directory for the run, in which the plan file
     goes, etc. *)
  match ModulePath run with
  | None => (Panicked, w)
  | Some modpath =>
      match PugDirectory run with
      | None => (Panicked, w)
      | Some dir =>
          let pugdir := filepath.Join [modpath; dir] in
          match MkdirAll pugdir w with
          | (Some err, w) => (Err err, w)
          | (None, w) => (Ok run, w)
          end
      end
  end.

Definition updateStatus (s : status) (r : Run) (w : World) : Run * World :=
  let '(now, w) := Now w in
  let r :=
    {| Resource := Resource r; Created := Created r; Updated := now;
       Status := s; AutoApply := AutoApply r; PlanOnly := PlanOnly r;
       PlanReport := PlanReport r; ApplyReport := ApplyReport r;
       PlanTask := PlanTask r; ApplyTask := ApplyTask r;
       Error := Error r; afterUpdate := afterUpdate r |} in
  let w :=
    match afterUpdate r with
    | Some cb => emit (AfterUpdate cb r) w
    | None => w
    end in
  let w :=
    if IsFinished r then emit (LogInfo "completed run" (Status r) (LogValue r)) w
    else w in
  (r, w).

Definition setErrored (err : option error) (r : Run) (w : World) : Run * World :=
  let r :=
    {| Resource := Resource r; Created := Created r; Updated := Updated r;
       Status := Status r; AutoApply := AutoApply r; PlanOnly := PlanOnly r;
       PlanReport := PlanReport r; ApplyReport := ApplyReport r;
       PlanTask := PlanTask r; ApplyTask := ApplyTask r;
       Error := err; afterUpdate := afterUpdate r |} in
  updateStatus Errored r w.

(** A status update, as a value: the two ways the package changes the
    status of a run. *)
Inductive update :=
| UpdateStatus (s : status)
| SetErrored (err : option error).

Definition apply_update (u : update) (r : Run) (w : World) : Run * World :=
  match u with
  | UpdateStatus s => updateStatus s r w
  | SetErrored err => setErrored err r w
  end.

Fixpoint apply_updates (us : list update) (r : Run) (w : World) : Run * World :=
  match us with
  | [] => (r, w)
  | u :: rest => let '(r, w) := apply_update u r w in apply_updates rest r w
  end.

(** The updates that keep a captured error and the [Errored] status
    together: [updateStatus] neither enters nor leaves [Errored], and
    [setErrored] is handed an error that is not nil. *)
Definition keeps_error (u : update) (r : Run) : bool :=
  match u with
  | UpdateStatus s =>
      negb (String.eqb s Errored) && negb (String.eqb (Status r) Errored)
  | SetErrored err => bool_decide (is_Some err)
  end.

Fixpoint all_keep_error (us : list update) (r : Run) (w : World) : bool :=
  match us with
  | [] => true
  | u :: rest =>
      keeps_error u r &&
      let '(r, w) := apply_update u r w in all_keep_error rest r w
  end.

(** The directory [newRun] asks for, for a workspace below the module [m]
    and the identifier [i]. *)
Definition pugdir_of (ws : workspace.Workspace) (m : resource.Resource)
    (i : resource.ID) : string :=
  filepath.Join
    [resource.Resource_String m;
     filepath.Join
       [workspace.PugDirectory (resource.Resource_String (workspace.Resource ws));
        resource.ID_String i]].

(** The invariant of section 8: [Error != nil] exactly when the status is
    [Errored]. *)
Definition error_iff_errored (r : Run) : Prop :=
  is_Some (Error r) <-> Status r = Errored.

End Methods.

End run.

(** ** Package [table], the table of entities ([Model[T]]) *)

Module table.

(** [Item]: an entity with an identifier.  [zero] is the zero value of the
    type, what [*new(T)] and a failed map lookup yield. *)
Class Item (T : Type) := {
  ID : T -> resource.ID;
  zero : T
}.

(** Row represents one line in the table. *)
Record Row (T : Type) := { Cells : list string; Entity : T }.
Arguments Cells {T} _.
Arguments Entity {T} _.

(** Model defines a state for the table widget.  The key map, the columns,
    the styles and the rendered content of the viewport are presentation
    and stay outside the model; of the viewport its height is kept. *)
Record Model (T : Type) := {
  rows : list (Row T);
  cursor : Z;
  focus : bool;
  items : gmap resource.ID T;
  Selected : gmap resource.ID T;
  selectable : bool;
  selectAll : bool;
  viewport_Height : Z;
  start : Z;
  end_ : Z
}.
Arguments rows {T} _.
Arguments cursor {T} _.
Arguments focus {T} _.
Arguments items {T} _.
Arguments Selected {T} _.
Arguments selectable {T} _.
Arguments selectAll {T} _.
Arguments viewport_Height {T} _.
Arguments start {T} _.
Arguments end_ {T} _.

Definition clamp (v low high : Z) : Z := Z.min (Z.max v low) high.

Section Methods.
Context {T : Type} `{Item T}.

Definition len (rs : list (Row T)) : Z := Z.of_nat (length rs).

Definition set_Selected (sel : gmap resource.ID T) (all : bool) (m : Model T)
  : Model T :=
  {| rows := rows m; cursor := cursor m; focus := focus m; items := items m;
     Selected := sel; selectable := selectable m; selectAll := all;
     viewport_Height := viewport_Height m; start := start m; end_ := end_ m |}.

(** UpdateViewport updates the list content based on the previously defined
    columns and rows: the rows from [start] up to [end_] are rendered. *)
Definition UpdateViewport (m : Model T) : Model T :=
  let start' :=
    if cursor m >=? 0 then clamp (int_wrap (cursor m - viewport_Height m)) 0 (cursor m)
    else 0 in
  let end' := clamp (int_wrap (cursor m + viewport_Height m)) (cursor m) (len (rows m)) in
  {| rows := rows m; cursor := cursor m; focus := focus m; items := items m;
     Selected := Selected m; selectable := selectable m; selectAll := selectAll m;
     viewport_Height := viewport_Height m; start := start'; end_ := end' |}.

(** Highlighted returns the currently highlighted entity. *)
Definition Highlighted (m : Model T) : T * bool :=
  if (cursor m <? 0) || (cursor m >=? len (rows m)) then (zero, false)
  else match rows m !! Z.to_nat (cursor m) with
       | Some row => (Entity row, true)
       | None => (zero, false)
       end.

(** [v, ok := sel[id]]. *)
Definition lookup_ok (sel : gmap resource.ID T) (id : resource.ID) : T * bool :=
  match sel !! id with
  | Some v => (v, true)
  | None => (zero, false)
  end.

(** ToggleSelection toggles the selection of the currently highlighted row. *)
Definition ToggleSelection (m : Model T) : Model T :=
  if negb (selectable m) then m
  else
    let '(highlighted, ok) := Highlighted m in
    if negb ok then m
    else
      let '(entity, isSelected) := lookup_ok (Selected m) (ID highlighted) in
      let sel :=
        if isSelected then delete (ID highlighted) (Selected m)
        else <[ID highlighted := entity]> (Selected m) in
      UpdateViewport (set_Selected sel (selectAll m) m).

(** DeselectAll de-selects any rows that are currently selected. *)
Definition DeselectAll (m : Model T) : Model T :=
  if negb (selectable m) then m
  else UpdateViewport (set_Selected ∅ false m).

(** ToggleSelectAll toggles the selection of all rows. *)
Definition ToggleSelectAll (m : Model T) : Model T :=
  if negb (selectable m) then m
  else if selectAll m then DeselectAll m
  else
    let sel :=
      fold_left (fun sel r => <[ID (Entity r) := Entity r]> sel) (rows m) ∅ in
    UpdateViewport (set_Selected sel true m).

Definition set_cursor (c : Z) (m : Model T) : Model T :=
  {| rows := rows m; cursor := c; focus := focus m; items := items m;
     Selected := Selected m; selectable := selectable m; selectAll := selectAll m;
     viewport_Height := viewport_Height m; start := start m; end_ := end_ m |}.

(** SetCursor sets the cursor position in the table. *)
Definition SetCursor (n : Z) (m : Model T) : Model T :=
  UpdateViewport (set_cursor (clamp n 0 (len (rows m) - 1)) m).

(** MoveUp moves the highlightion up by any number of rows.  It can not go
    above the first row.  The switch that follows the new cursor only moves
    the offset of the viewport, which belongs to the viewport widget. *)
Definition MoveUp (n : Z) (m : Model T) : Model T :=
  UpdateViewport
    (set_cursor (clamp (int_wrap (cursor m - n)) 0 (len (rows m) - 1)) m).

(** MoveDown moves the highlightion down by any number of rows.  It can not
    go below the last row. *)
Definition MoveDown (n : Z) (m : Model T) : Model T :=
  UpdateViewport
    (set_cursor (clamp (int_wrap (cursor m + n)) 0 (len (rows m) - 1)) m).

(** GotoTop moves the highlightion to the first row. *)
Definition GotoTop (m : Model T) : Model T := MoveUp (cursor m) m.

(** GotoBottom moves the highlightion to the last row. *)
Definition GotoBottom (m : Model T) : Model T := MoveDown (len (rows m)) m.

(** HighlightedOrSelected returns either the selected entities, if there
    are no selections, the currently highlighted entity.  [None] is the
    nil map. *)
Definition HighlightedOrSelected (m : Model T) : option (gmap resource.ID T) :=
  if (0 <? size (Selected m))%nat then Some (Selected m)
  else
    let '(res, ok) := Highlighted m in
    if ok then Some {[ ID res := res ]} else None.

End Methods.

End table.

(** ** Package [table], the table of keyed rows ([Model[K, V]]) *)

Module table_kv.

(* Height of the table header *)
Definition headerHeight : Z := 1.
(* Height of filter widget *)
Definition filterHeight : Z := 2.

Record Row (K V : Type) := { Key : K; Value : V }.
Arguments Key {K V} _.
Arguments Value {K V} _.

(** [strings.Contains(s, substr)]. *)
Fixpoint Contains (s substr : string) : bool :=
  String.prefix substr s ||
  match s with
  | EmptyString => false
  | String _ rest => Contains rest substr
  end.

Section Model.
Context {K V : Type} `{Countable K}.

(** RenderedRow provides the rendered string for each column in a row. *)
Definition RenderedRow := gmap string string.

(** Model defines a state for the table widget.  Of the filter widget the
    model keeps its value and whether it has the focus; of the viewport its
    height.  Columns, styles and rendered content stay outside. *)
Record Model := {
  rows : list (Row K V);
  rowRenderer : V -> RenderedRow;
  cursor : Z;
  focus : bool;
  items : gmap K V;
  sortFunc : option (V -> V -> Z);
  Selected : gmap K V;
  selectable : bool;
  selectAll : bool;
  filter_Value : string;
  filter_Focused : bool;
  viewport_Height : Z;
  start : Z;
  end_ : Z;
  width : Z;
  height : Z
}.

(** [internal.StripAnsi], which removes escape codes from a rendered cell;
    it lives in the absent package [internal]. *)
Variable StripAnsi : string -> string.

Definition len (rs : list (Row K V)) : Z := Z.of_nat (length rs).

Definition clamp (v low high : Z) : Z := Z.min (Z.max v low) high.

Definition set_Selected (sel : gmap K V) (all : bool) (m : Model) : Model :=
  {| rows := rows m; rowRenderer := rowRenderer m; cursor := cursor m;
     focus := focus m; items := items m; sortFunc := sortFunc m;
     Selected := sel; selectable := selectable m; selectAll := all;
     filter_Value := filter_Value m; filter_Focused := filter_Focused m;
     viewport_Height := viewport_Height m; start := start m; end_ := end_ m;
     width := width m; height := height m |}.

Definition set_filter (value : string) (focused : bool) (m : Model) : Model :=
  {| rows := rows m; rowRenderer := rowRenderer m; cursor := cursor m;
     focus := focus m; items := items m; sortFunc := sortFunc m;
     Selected := Selected m; selectable := selectable m; selectAll := selectAll m;
     filter_Value := value; filter_Focused := focused;
     viewport_Height := viewport_Height m; start := start m; end_ := end_ m;
     width := width m; height := height m |}.

(** UpdateViewport updates the list content based on the previously defined
    columns and rows: the rows from [start] up to [end_] are rendered. *)
Definition UpdateViewport (m : Model) : Model :=
  let start' :=
    if cursor m >=? 0 then clamp (int_wrap (cursor m - viewport_Height m)) 0 (cursor m)
    else 0 in
  let end' := clamp (int_wrap (cursor m + viewport_Height m)) (cursor m) (len (rows m)) in
  {| rows := rows m; rowRenderer := rowRenderer m; cursor := cursor m;
     focus := focus m; items := items m; sortFunc := sortFunc m;
     Selected := Selected m; selectable := selectable m; selectAll := selectAll m;
     filter_Value := filter_Value m; filter_Focused := filter_Focused m;
     viewport_Height := viewport_Height m; start := start'; end_ := end';
     width := width m; height := height m |}.

Definition filterVisible (m : Model) : bool :=
  (* Filter is visible if it's either in focus, or it has a non-empty value. *)
  filter_Focused m || negb (String.eqb (filter_Value m) "").

Definition setDimensions (w h : Z) (m : Model) : Model :=
  (* Accommodate height of table header, and of the filter widget *)
  let vh := int_wrap (h - headerHeight) in
  let vh := if filterVisible m then int_wrap (vh - filterHeight) else vh in
  UpdateViewport
    {| rows := rows m; rowRenderer := rowRenderer m; cursor := cursor m;
       focus := focus m; items := items m; sortFunc := sortFunc m;
       Selected := Selected m; selectable := selectable m; selectAll := selectAll m;
       filter_Value := filter_Value m; filter_Focused := filter_Focused m;
       viewport_Height := vh; start := start m; end_ := end_ m;
       width := Z.max 80 w; height := h |}.

(** New creates a new model for the table widget. *)
Definition New (fn : V -> RenderedRow) (w h : Z) : Model :=
  setDimensions w h
    {| rows := []; rowRenderer := fn; cursor := 0; focus := true; items := ∅;
       sortFunc := None; Selected := ∅; selectable := true; selectAll := false;
       filter_Value := ""; filter_Focused := false;
       viewport_Height := 0; start := 0; end_ := 0; width := 0; height := 0 |}.

(** WithSortFunc configures the table to sort rows using the given func. *)
Definition WithSortFunc (f : V -> V -> Z) (m : Model) : Model :=
  {| rows := rows m; rowRenderer := rowRenderer m; cursor := cursor m;
     focus := focus m; items := items m; sortFunc := Some f;
     Selected := Selected m; selectable := selectable m; selectAll := selectAll m;
     filter_Value := filter_Value m; filter_Focused := filter_Focused m;
     viewport_Height := viewport_Height m; start := start m; end_ := end_ m;
     width := width m; height := height m |}.

(** currentRow returns the row on which the cursor currently sits. If the
    cursor is out of bounds then false is returned along with an empty row:
    here, [None]. *)
Definition currentRow (m : Model) : option (Row K V) :=
  if (cursor m <? 0) || (cursor m >=? len (rows m)) then None
  else rows m !! Z.to_nat (cursor m).

(** ToggleSelection toggles the selection of the currently highlighted row. *)
Definition ToggleSelection (m : Model) : Model :=
  if negb (selectable m) then m
  else match currentRow m with
       | None => m
       | Some current =>
           let sel :=
             match Selected m !! Key current with
             | Some _ => delete (Key current) (Selected m)
             | None => <[Key current := Value current]> (Selected m)
             end in
           UpdateViewport (set_Selected sel (selectAll m) m)
       end.

(** ToggleSelectionByKey toggles the selection of the row with the given
    key. If the key does not exist no action is taken. *)
Definition ToggleSelectionByKey (key : K) (m : Model) : Model :=
  if negb (selectable m) then m
  else match items m !! key with
       | None => m
       | Some v =>
           let sel :=
             match Selected m !! key with
             | Some _ => delete key (Selected m)
             | None => <[key := v]> (Selected m)
             end in
           UpdateViewport (set_Selected sel (selectAll m) m)
       end.

(** The loop of [SelectRange] from row [i] on: the first row to select and
    the number of rows to select. *)
Fixpoint scan (m : Model) (rs : list (Row K V)) (i first : Z) : Z * Z :=
  match rs with
  | [] => (first, 0)
  | row :: rest =>
      if (i =? cursor m) && (first >? -1) && (first <? cursor m) then
        (* Select rows before and including cursor *)
        (first, cursor m - first + 1)
      else
        match Selected m !! Key row with
        | None =>
            (* Ignore unselected rows *)
            scan m rest (i + 1) first
        | Some _ =>
            if i >? cursor m then
              (* Select rows including cursor and all rows up to but not
                 including next selected row *)
              (cursor m, i - cursor m)
            else
              (* Start selecting rows after this currently selected row. *)
              scan m rest (i + 1) (i + 1)
        end
  end.

(** The slice expression [rs[low:high]]; [None] is the panic of a bound
    out of range.  The upper bound is checked against the length: the
    capacity of [m.rows] is at least that, and [SelectRange] never asks
    for more than the length (see [scan_high]). *)
Definition slice (rs : list (Row K V)) (low high : Z) : option (list (Row K V)) :=
  if (low <? 0) || (high <? low) || (high >? len rs) then None
  else Some (take (Z.to_nat (high - low)) (drop (Z.to_nat low) rs)).

(** How a method that may panic ends. *)
Inductive outcome :=
| Returned (m : Model)
| Panicked.

(** SelectRange selects a range of rows. If the current row is *below* a
    selected row then rows between them are selected, including the current
    row. Otherwise, if the current row is *above* a selected row then rows
    between them are selected, including the current row. If there are no
    selected rows then no action is taken. *)
Definition SelectRange (m : Model) : outcome :=
  if negb (selectable m) then Returned m
  else if (size (Selected m) =? 0)%nat then Returned m
  else
    (* Determine the first row to select, and the number of rows to select. *)
    let '(first, n) := scan m (rows m) 0 (-1) in
    match slice (rows m) first (first + n) with
    | None => Panicked
    | Some range =>
        let sel :=
          fold_left (fun sel row => <[Key row := Value row]> sel) range
            (Selected m) in
        Returned (UpdateViewport (set_Selected sel (selectAll m) m))
    end.

Definition filterMatch (m : Model) (it : V) : bool :=
  existsb (fun cell => Contains (StripAnsi cell.2) (filter_Value m))
    (map_to_list (rowRenderer m it)).

(** [slices.SortFunc]: rows in the order of [cmp]. *)
Fixpoint insert_row (cmp : V -> V -> Z) (x : Row K V) (rs : list (Row K V))
  : list (Row K V) :=
  match rs with
  | [] => [x]
  | y :: rest =>
      if cmp (Value x) (Value y) <? 0 then x :: y :: rest
      else y :: insert_row cmp x rest
  end.

Definition sort_rows (cmp : V -> V -> Z) (rs : list (Row K V)) : list (Row K V) :=
  fold_right (insert_row cmp) [] rs.

(** SetItems sets new items on the table, overwriting existing items.  Go
    ranges over a map in an order it does not specify; the model takes the
    order of [map_to_list]. *)
Definition SetItems (its : gmap K V) (m : Model) : Model :=
  let kept :=
    filter (fun kv => negb (negb (String.eqb (filter_Value m) "") &&
                            negb (filterMatch m kv.2)) = true)
      (map_to_list its) in
  let rows' := (fun kv => {| Key := kv.1; Value := kv.2 |}) <$> kept in
  (* Carry over existing selections. *)
  let selections : gmap K V :=
    if selectable m then
      list_to_map (filter (fun kv => is_Some (Selected m !! kv.1)) kept)
    else ∅ in
  (* Sort rows in-place *)
  let rows' :=
    match sortFunc m with
    | Some cmp => sort_rows cmp rows'
    | None => rows'
    end in
  (* Check if cursor is now out of bounds and if so set it to the last row. *)
  let cursor' :=
    if cursor m >? len rows' - 1 then Z.max 0 (len rows' - 1) else cursor m in
  UpdateViewport
    {| rows := rows'; rowRenderer := rowRenderer m; cursor := cursor';
       focus := focus m; items := its; sortFunc := sortFunc m;
       Selected := selections; selectable := selectable m;
       selectAll := selectAll m;
       filter_Value := filter_Value m; filter_Focused := filter_Focused m;
       viewport_Height := viewport_Height m; start := start m; end_ := end_ m;
       width := width m; height := height m |}.

(** An item is visible when no filter is set or one of its rendered cells
    contains the value of the filter. *)
Definition visible (m : Model) (v : V) : Prop :=
  filter_Value m = "" \/ filterMatch m v = true.

Definition row_of (kv : K * V) : Row K V := {| Key := kv.1; Value := kv.2 |}.

(** A row whose key is selected. *)
Definition is_selected (m : Model) (row : Row K V) : Prop :=
  is_Some (Selected m !! Key row).

(** The selection [SelectRange] leaves when it selects the rows [range]. *)
Definition select_rows (range : list (Row K V)) (m : Model) : Model :=
  UpdateViewport
    (set_Selected
       (fold_left (fun sel row => <[Key row := Value row]> sel) range (Selected m))
       (selectAll m) m).

(** [Update] on a [tui.FilterKeyMsg]: the filter widget takes the key, which
    leaves it with [value], and the table items are filtered again. *)
Definition Update_FilterKeyMsg (value : string) (m : Model) : Model :=
  if negb (focus m) then m
  else SetItems (items m) (set_filter value (filter_Focused m) m).

(** [Update] on the key bound to [SelectRange]. *)
Definition Update_SelectRange (m : Model) : outcome :=
  if negb (focus m) then Returned m else SelectRange m.

Definition set_cursor (c : Z) (m : Model) : Model :=
  {| rows := rows m; rowRenderer := rowRenderer m; cursor := c;
     focus := focus m; items := items m; sortFunc := sortFunc m;
     Selected := Selected m; selectable := selectable m; selectAll := selectAll m;
     filter_Value := filter_Value m; filter_Focused := filter_Focused m;
     viewport_Height := viewport_Height m; start := start m; end_ := end_ m;
     width := width m; height := height m |}.

(** Highlighted returns the currently highlighted entity. *)
Definition Highlighted (m : Model) : option (Row K V) := currentRow m.

(** HighlightedKey returns the currently highlighted entity key. *)
Definition HighlightedKey (m : Model) : option K := Key <$> currentRow m.

(** HighlightedOrSelected returns either the selected entities, if there
    are no selections, the currently highlighted entity.  [None] is the nil
    slice; the selected rows come in the order of the range over the map. *)
Definition HighlightedOrSelected (m : Model) : option (list (Row K V)) :=
  if (0 <? size (Selected m))%nat then
    Some ((fun kv => {| Key := kv.1; Value := kv.2 |}) <$> map_to_list (Selected m))
  else (fun row => [row]) <$> Highlighted m.

Definition HighlightedOrSelectedKeys (m : Model) : option (list K) :=
  if (0 <? size (Selected m))%nat then Some ((map_to_list (Selected m)).*1)
  else (fun row => [Key row]) <$> Highlighted m.

(** DeselectAll de-selects any rows that are currently selected. *)
Definition DeselectAll (m : Model) : Model :=
  if negb (selectable m) then m
  else UpdateViewport (set_Selected ∅ false m).

(** ToggleSelectAll toggles the selection of all rows. *)
Definition ToggleSelectAll (m : Model) : Model :=
  if negb (selectable m) then m
  else if selectAll m then DeselectAll m
  else
    let sel :=
      fold_left (fun sel row => <[Key row := Value row]> sel) (rows m) ∅ in
    UpdateViewport (set_Selected sel true m).

(** Items returns the current items. Note this is the number of items prior
    to any filtering. *)
Definition Items (m : Model) : gmap K V := items m.

(** SetCursor sets the cursor position in the table. *)
Definition SetCursor (n : Z) (m : Model) : Model :=
  UpdateViewport (set_cursor (clamp n 0 (len (rows m) - 1)) m).

(** MoveUp moves the highlightion up by any number of rows.  It can not go
    above the first row.  The switch that follows the new cursor only moves
    the offset of the viewport, which belongs to the viewport widget. *)
Definition MoveUp (n : Z) (m : Model) : Model :=
  UpdateViewport
    (set_cursor (clamp (int_wrap (cursor m - n)) 0 (len (rows m) - 1)) m).

(** MoveDown moves the highlightion down by any number of rows.  It can not
    go below the last row. *)
Definition MoveDown (n : Z) (m : Model) : Model :=
  UpdateViewport
    (set_cursor (clamp (int_wrap (cursor m + n)) 0 (len (rows m) - 1)) m).

(** GotoTop moves the highlightion to the first row. *)
Definition GotoTop (m : Model) : Model := MoveUp (cursor m) m.

(** GotoBottom moves the highlightion to the last row. *)
Definition GotoBottom (m : Model) : Model := MoveDown (len (rows m)) m.

(** [Update] on a [tui.FilterCloseMsg]: the filter is blurred and emptied,
    the items are shown unfiltered and the viewport takes the space back. *)
Definition Update_FilterCloseMsg (m : Model) : Model :=
  if negb (focus m) then m
  else
    let m := SetItems (items m) (set_filter "" false m) in
    setDimensions (width m) (height m) m.

End Model.

Arguments Model K V {_ _}.
Arguments outcome K V {_ _}.

End table_kv.

(** ** What package [logging] is built on *)

Module logfmt.

(** A logfmt record as the decoder hands it over: its keys and values, in
    the order of the line. *)
Definition record := list (string * string).

(** The decoder of [github.com/go-logfmt/logfmt], seen from the loop that
    drives it: the records that [ScanRecord] and [ScanKeyval] step through
    before they return false for good, and the error [Err()] reports then.
    When a key or value is malformed the record cut short is the last of
    the list and the error is not nil. *)
Class Decoder := { Decode : list Byte.byte -> list record * option error }.

End logfmt.

Module io.

(** [io.Writer], with the state of what is written to: [Write] returns the
    count of bytes it took and an error, and leaves the writer behind. *)
Class Writer (F : Type) := {
  Write : F -> list Byte.byte -> (Z * option error) * F
}.

End io.

(** ** Package [logging] *)

Module logging.

(** [time.Parse(time.RFC3339, value)]. *)
Class TimeParser := { time_Parse : string -> time.Time + error }.

Record Attr := { Key : string; Value : string }.

(** Message is the event payload for a log message. *)
Record Message := {
  Time : time.Time;
  Level : string;
  Msg : string;
  Attributes : list Attr;
  (* A log message is a resource, only in order to satisfy the interface on
     tui/table.Table *)
  Resource : resource.Resource;
  (* Serial uniquely identifies the message (within the scope of the logger
     it was emitted from). The higher the serial number the newer the
     message. *)
  serial : N
}.

(** The logger: its messages, what it has published on its broker (the
    payloads of the [CreatedEvent]s, the latest first), the log file, and
    the serial of the next message. *)
Record Logger (F : Type) := {
  Messages : list Message;
  published : list Message;
  file : F;
  Logger_serial : N
}.
Arguments Messages {F} _.
Arguments published {F} _.
Arguments file {F} _.
Arguments Logger_serial {F} _.

(** A [uint] counts modulo [2^64]. *)
Definition uint_succ (n : N) : N := ((n + 1) mod 2 ^ 64)%N.

(** The serials of [k] messages in a row, counted up from [n]. *)
Fixpoint serials_from (n : N) (k : nat) : list N :=
  match k with
  | O => []
  | S k => n :: serials_from (uint_succ n) k
  end.

(** NewLogger constructs a logger on the file that opening [pug.log] gave. *)
Definition NewLogger {F : Type} (f : F) : Logger F :=
  {| Messages := []; published := []; file := f; Logger_serial := 0%N |}.

Section Methods.
Context {F : Type} `{io.Writer F} `{logfmt.Decoder} `{TimeParser}.

(** One turn of the loop over [ScanKeyval]. *)
Definition scanKeyval (msg : Message) (kv : string * string) : Message + error :=
  let '(key, value) := kv in
  if String.eqb key "time" then
    match time_Parse value with
    | inr err => inr ("parsing time: " +:+ err)
    | inl parsed =>
        inl {| Time := parsed; Level := Level msg; Msg := Msg msg;
               Attributes := Attributes msg; Resource := Resource msg;
               serial := serial msg |}
    end
  else if String.eqb key "level" then
    inl {| Time := Time msg; Level := value; Msg := Msg msg;
           Attributes := Attributes msg; Resource := Resource msg;
           serial := serial msg |}
  else if String.eqb key "msg" then
    inl {| Time := Time msg; Level := Level msg; Msg := value;
           Attributes := Attributes msg; Resource := Resource msg;
           serial := serial msg |}
  else
    inl {| Time := Time msg; Level := Level msg; Msg := Msg msg;
           Attributes := (Attributes msg ++ [ {| Key := key; Value := value |} ])%list;
           Resource := Resource msg; serial := serial msg |}.

Fixpoint scanKeyvals (msg : Message) (kvs : logfmt.record) : Message + error :=
  match kvs with
  | [] => inl msg
  | kv :: rest =>
      match scanKeyval msg kv with
      | inr err => inr err
      | inl msg => scanKeyvals msg rest
      end
  end.

(** Where the loop over [ScanRecord] stands: the logger, the supply of
    identifiers, and the messages of this call so far. *)
Record scanning := {
  scan_logger : Logger F;
  scan_ids : resource.ID;
  scan_msgs : list Message
}.

(** The loop over [ScanRecord]; [inr] is the return from inside the loop,
    on a time that does not parse. *)
Fixpoint scanRecords (recs : list logfmt.record) (st : scanning)
  : scanning + (error * scanning) :=
  match recs with
  | [] => inl st
  | rec :: rest =>
      let l := scan_logger st in
      let '(res, ids) := resource.New resource.Log "" None (scan_ids st) in
      let msg :=
        {| Time := 0; Level := ""; Msg := ""; Attributes := [];
           Resource := res; serial := Logger_serial l |} in
      match scanKeyvals msg rec with
      | inr err =>
          inr (err, {| scan_logger := l; scan_ids := ids; scan_msgs := scan_msgs st |})
      | inl msg =>
          scanRecords rest
            {| scan_logger :=
                 {| Messages := Messages l;
                    published := msg :: published l;
                    file := file l;
                    Logger_serial := uint_succ (Logger_serial l) |};
               scan_ids := ids;
               scan_msgs := (scan_msgs st ++ [msg])%list |}
      end
  end.

(** [Logger.Write]: the count and the error it returns, and the logger and
    the supply of identifiers it leaves. *)
Definition Write (p : list Byte.byte) (l : Logger F) (ids : resource.ID)
  : (Z * option error) * Logger F * resource.ID :=
  let '(recs, derr) := logfmt.Decode p in
  match scanRecords recs {| scan_logger := l; scan_ids := ids; scan_msgs := [] |} with
  | inr (err, st) => ((0, Some err), scan_logger st, scan_ids st)
  | inl st =>
      let l := scan_logger st in
      match derr with
      | Some err => ((0, Some err), l, scan_ids st)
      | None =>
          let msgs := (Messages l ++ scan_msgs st)%list in
          let '((_, werr), f) := io.Write (file l) p in
          let l := {| Messages := msgs; published := published l; file := f;
                      Logger_serial := Logger_serial l |} in
          match werr with
          | Some err => ((0, Some err), l, scan_ids st)
          | None => ((Z.of_nat (length p), None), l, scan_ids st)
          end
      end
  end.

(** Every serial the logger has given out is below the next one. *)
Definition serials_below (l : Logger F) : Prop :=
  Forall (fun m => (serial m < Logger_serial l)%N) (published l).

(** What holds of a logger between writes: the serials given out are
    below the next one, the messages are in strictly increasing order of
    serial, and each of them was published. *)
Definition log_inv (l : Logger F) : Prop :=
  serials_below l
  /\ StronglySorted (fun a b => (serial a < serial b)%N) (Messages l)
  /\ forall m, m ∈ Messages l -> m ∈ published l.

(** One [Write] after the other, whatever each returns. *)
Fixpoint Writes (ps : list (list Byte.byte)) (l : Logger F) (ids : resource.ID)
  : Logger F * resource.ID :=
  match ps with
  | [] => (l, ids)
  | p :: rest => let '(_, l, ids) := Write p l ids in Writes rest l ids
  end.

(** The records the decoder steps through over a sequence of writes. *)
Definition records (ps : list (list Byte.byte)) : nat :=
  list_sum ((fun p => length (logfmt.Decode p).1) <$> ps).

(** A record whose times, if it has any, parse. *)
Definition times_parse (rec : logfmt.record) : Prop :=
  Forall (fun kv : string * string =>
            kv.1 = "time" -> exists t, time_Parse kv.2 = inl t) rec.

End Methods.

(** [BySerialDesc]: the newer message first. *)
Definition BySerialDesc (i j : Message) : Z :=
  if (serial i <? serial j)%N then 1 else -1.

End logging.

(** ** A small installation, to run the models on *)

Module scenario.

(** Identifiers print as [r], [rx], [rxx], ...; a resource prints as its
    name. *)
Fixpoint tally (n : nat) : string :=
  match n with
  | O => ""
  | S n => String "x" (tally n)
  end.

Definition id_string (i : resource.ID) : string := String "r" (tally i).

#[export] Instance strings : resource.Strings :=
  {| resource.ID_String := id_string;
     resource.Resource_String := resource.Name |}.

#[export] Instance layout : workspace.Layout :=
  {| workspace.PugDirectory := fun name => filepath.Join [".pug"; name] |}.


Definition mod_resource : resource.Resource :=
  resource.mkResource 0%nat resource.Module "infra" None.

Definition mod0 : module.Module := {| module.Resource := mod_resource |}.

Definition ws0 : workspace.Workspace :=
  {| workspace.Resource :=
       resource.mkResource 1%nat resource.Workspace "dev" (Some mod_resource);
     workspace.AutoApply := true |}.

(** No identifier below 2 is free, the clock reads 100, 101, ..., every
    directory can be made and none is there yet, not even the module's, and
    nothing has happened yet. *)
Definition world0 : run.World :=
  {| run.next_id := 2%nat;
     run.clock := fun n => 100 + Z.of_nat n;
     run.ticks := 0%nat;
     run.mkdir_error := fun _ => None;
     run.dirs := [];
     run.events := [] |}.

Definition plan_only : run.CreateOptions :=
  {| run.opt_PlanOnly := true; run.opt_afterUpdate := Some 7%nat |}.

(** The run that [newRun] makes there. *)
Definition run0 : run.Run :=
  {| run.Resource :=
       resource.mkResource 2%nat resource.Run "" (Some (workspace.Resource ws0));
     run.Created := 100;
     run.Updated := 101;
     run.Status := run.Pending;
     run.AutoApply := true;
     run.PlanOnly := false;
     run.PlanReport := run.Report_zero;
     run.ApplyReport := run.Report_zero;
     run.PlanTask := None;
     run.ApplyTask := None;
     run.Error := None;
     run.afterUpdate := Some 7%nat |}.

Definition world1 : run.World :=
  {| run.next_id := 3%nat;
     run.clock := fun n => 100 + Z.of_nat n;
     run.ticks := 2%nat;
     run.mkdir_error := fun _ => None;
     run.dirs := ["infra/.pug/dev/rxx"; "infra/.pug/dev"; "infra/.pug"; "infra"];
     run.events := [] |}.

(** A table of entities with one row, nothing selected. *)
Record entity := { entity_id : resource.ID; entity_name : string }.

#[export] Instance entity_item : table.Item entity :=
  {| table.ID := entity_id;
     table.zero := {| entity_id := 0%nat; entity_name := "" |} |}.

Definition dev : entity := {| entity_id := 1%nat; entity_name := "dev" |}.

Definition entities : table.Model entity :=
  {| table.rows := [ {| table.Cells := ["dev"]; table.Entity := dev |} ];
     table.cursor := 0;
     table.focus := true;
     table.items := {[ 1%nat := dev ]};
     table.Selected := ∅;
     table.selectable := true;
     table.selectAll := false;
     table.viewport_Height := 20;
     table.start := 0;
     table.end_ := 1 |}.

(** A table of workspace names by identifier: made, filled with two items,
    filtered down to the one that contains [dev]; then the item that the
    filter hides is selected by its key. *)
Definition render_name (name : string) : table_kv.RenderedRow :=
  {[ "workspace" := name ]}.

Definition names : gmap resource.ID string :=
  {[ 1%nat := "dev"; 2%nat := "prod" ]}.

Definition filtered : table_kv.Model resource.ID string :=
  table_kv.Update_FilterKeyMsg (fun cell => cell) "dev"
    (table_kv.SetItems (fun cell => cell) names
       (table_kv.New render_name 80 24)).

Definition hidden_selected : table_kv.Model resource.ID string :=
  table_kv.ToggleSelectionByKey 2%nat filtered.

(** A second run, made right after the first. *)
Definition run1 : run.Run :=
  match (run.newRun mod0 ws0 plan_only world1).1 with
  | run.Ok r => r
  | _ => run0
  end.

(** Stand-ins for what the logger is built on.  The decoder reads lines of
    [key=value] fields separated by single spaces, without quoting, and
    stops at the first field with no key; the clock knows one instant; the
    log file is the bytes written so far, or [None] when [pug.log] could
    not be opened, which every [Write] answers with an error. *)
Fixpoint split_on (sep : ascii) (s : string) : list string :=
  match s with
  | EmptyString => [EmptyString]
  | String c rest =>
      if Ascii.eqb c sep then EmptyString :: split_on sep rest
      else match split_on sep rest with
           | [] => [String c EmptyString]
           | e :: es => String c e :: es
           end
  end.

Fixpoint decode_fields (fields : list string) : logfmt.record * option error :=
  match fields with
  | [] => ([], None)
  | field :: rest =>
      match split_on "=" field with
      | key :: values =>
          if String.eqb key "" then ([], Some "unexpected '='")
          else
            let '(kvs, err) := decode_fields rest in
            ((key, String.concat "=" values) :: kvs, err)
      | [] => ([], Some "unexpected '='")
      end
  end.

Fixpoint decode_lines (lines : list string) : list logfmt.record * option error :=
  match lines with
  | [] => ([], None)
  | line :: rest =>
      if String.eqb line "" then decode_lines rest
      else
        match decode_fields (split_on " " line) with
        | (kvs, Some err) => ([kvs], Some err)
        | (kvs, None) =>
            let '(recs, err) := decode_lines rest in (kvs :: recs, err)
        end
  end.

#[export] Instance decoder : logfmt.Decoder :=
  {| logfmt.Decode := fun p =>
       decode_lines (split_on "010" (string_of_list_byte p)) |}.

#[export] Instance time_parser : logging.TimeParser :=
  {| logging.time_Parse := fun value =>
       if String.eqb value "2024-02-01T10:00:00Z" then inl 1706781600
       else inr ("cannot parse " +:+ value) |}.

#[export] Instance log_file : io.Writer (option (list Byte.byte)) :=
  {| io.Write := fun f p =>
       match f with
       | Some written => ((Z.of_nat (length p), None), Some (written ++ p)%list)
       | None => ((0, Some "invalid argument"), None)
       end |}.

Definition started : list Byte.byte :=
  list_byte_of_string
    "time=2024-02-01T10:00:00Z level=info msg=started run=rxx".

Definition bad_time : list Byte.byte :=
  list_byte_of_string "time=yesterday level=info msg=started".

(** A line whose second field has no key: the decoder stops there. *)
Definition bad_field : list Byte.byte :=
  list_byte_of_string "level=info =started".


(** A world in which the directory of the module is there and [.pug] can
    be made below it, but nothing below [.pug]. *)
Definition guarded_world : run.World :=
  {| run.next_id := 2%nat;
     run.clock := fun n => 100 + Z.of_nat n;
     run.ticks := 0%nat;
     run.mkdir_error :=
       fun path =>
         if String.eqb path "infra/.pug/dev" then Some "permission denied"
         else None;
     run.dirs := ["infra"];
     run.events := [] |}.

(** A table of entities with three rows, the cursor on the second. *)
Definition staging : entity := {| entity_id := 2%nat; entity_name := "staging" |}.
Definition prod : entity := {| entity_id := 3%nat; entity_name := "prod" |}.

Definition three_entities : table.Model entity :=
  {| table.rows :=
       [ {| table.Cells := ["dev"]; table.Entity := dev |};
         {| table.Cells := ["staging"]; table.Entity := staging |};
         {| table.Cells := ["prod"]; table.Entity := prod |} ];
     table.cursor := 1;
     table.focus := true;
     table.items := {[ 1%nat := dev; 2%nat := staging; 3%nat := prod ]};
     table.Selected := ∅;
     table.selectable := true;
     table.selectAll := false;
     table.viewport_Height := 20;
     table.start := 0;
     table.end_ := 3 |}.

(** A workspace that is below no module. *)
Definition orphan : workspace.Workspace :=
  {| workspace.Resource := resource.mkResource 1%nat resource.Workspace "dev" None;
     workspace.AutoApply := false |}.

(** The table of entities without its row. *)
Definition no_entities : table.Model entity :=
  {| table.rows := [];
     table.cursor := 0;
     table.focus := true;
     table.items := ∅;
     table.Selected := ∅;
     table.selectable := true;
     table.selectAll := false;
     table.viewport_Height := 20;
     table.start := 0;
     table.end_ := 0 |}.

(** A table of four keyed rows, with the cursor and the selection given. *)
Definition row (k : nat) (v : string) : table_kv.Row nat string :=
  {| table_kv.Key := k; table_kv.Value := v |}.

Definition grid (c : Z) (sel : gmap nat string) : table_kv.Model nat string :=
  {| table_kv.rows := [row 1 "a"; row 2 "b"; row 3 "c"; row 4 "d"];
     table_kv.rowRenderer := render_name;
     table_kv.cursor := c;
     table_kv.focus := true;
     table_kv.items := {[ 1%nat := "a"; 2%nat := "b"; 3%nat := "c"; 4%nat := "d" ]};
     table_kv.sortFunc := None;
     table_kv.Selected := sel;
     table_kv.selectable := true;
     table_kv.selectAll := false;
     table_kv.filter_Value := "";
     table_kv.filter_Focused := false;
     table_kv.viewport_Height := 20;
     table_kv.start := 0;
     table_kv.end_ := 4;
     table_kv.width := 80;
     table_kv.height := 21 |}.

End scenario.

Module filepath_facts.
Import filepath.

Example Clean_double_separator : Clean "abc//def//ghi" = "abc/def/ghi".
Proof. reflexivity. Qed.

Example Clean_inner_dotdot : Clean "abc/def/../ghi/../jkl" = "abc/jkl".
Proof. reflexivity. Qed.

Example Clean_leading_dotdot : Clean "abc/../../././../def" = "../../def".
Proof. reflexivity. Qed.

Example Clean_rooted_dotdot : Clean "/../abc/" = "/abc".
Proof. reflexivity. Qed.

Example Clean_empty : Clean "" = "." /\ Clean "/" = "/" /\ Clean "a/.." = ".".
Proof. repeat split. Qed.

Example Join_skips_empty : Join [""; "a"; ""; "b"] = "a/b" /\ Join [""; ""] = "".
Proof. split; reflexivity. Qed.

Lemma split_nonempty path : split path <> [].
Proof.
  destruct path as [|c rest]; simpl; [discriminate|].
  destruct (Ascii.eqb c Separator); [discriminate|].
  destruct (split rest); discriminate.
Qed.

Lemma split_app_sep a b :
  split (a +:+ String Separator b) = (split a ++ split b)%list.
Proof.
  induction a as [|c a IH]; simpl.
  - reflexivity.
  - destruct (Ascii.eqb c Separator) eqn:E.
    + simpl. rewrite <- IH. reflexivity.
    + rewrite IH. pose proof (split_nonempty a) as Hne.
      destruct (split a); [congruence|reflexivity].
Qed.

(** Every element that [split] returns is free of separators. *)
Lemma split_elems_plain path : Forall (fun e => split e = [e]) (split path).
Proof.
  induction path as [|c rest IH]; simpl.
  - constructor; [reflexivity|constructor].
  - destruct (Ascii.eqb c Separator) eqn:E.
    + constructor; [reflexivity|exact IH].
    + pose proof (split_nonempty rest) as Hne.
      destruct (split rest) as [|e es]; [congruence|].
      inversion IH as [|? ? He Hes]; subst.
      constructor; [|exact Hes].
      simpl. rewrite E, He. reflexivity.
Qed.

Lemma split_concat l :
  l <> [] -> Forall (fun e => split e = [e]) l ->
  split (String.concat "/" l) = l.
Proof.
  induction l as [|x l IH]; intros Hne Hall; [congruence|].
  inversion Hall as [|? ? Hx Hl]; subst.
  destruct l as [|y l].
  - simpl. exact Hx.
  - change (String.concat "/" (x :: y :: l))
      with (x +:+ String Separator (String.concat "/" (y :: l))).
    rewrite split_app_sep, Hx, IH; [reflexivity|discriminate|exact Hl].
Qed.

Lemma clean_elems_plain r elems : forall out,
  Forall (fun e => split e = [e]) out ->
  Forall (fun e => split e = [e]) elems ->
  Forall (fun e => split e = [e]) (clean_elems r out elems).
Proof.
  induction elems as [|e rest IH]; intros out Hout Hel; simpl; [exact Hout|].
  inversion Hel as [|? ? He Hrest]; subst.
  destruct (String.eqb e "" || String.eqb e "."); [auto|].
  destruct (String.eqb e "..").
  - destruct out as [|top out'].
    + destruct r; auto.
    + inversion Hout; subst. destruct (String.eqb top ".."); auto.
  - auto.
Qed.

(** A plain last element survives cleaning, on top of what the elements
    before it leave. *)
Lemma clean_elems_snoc r c : forall elems out,
  plain_elem c ->
  clean_elems r out (elems ++ [c]) = c :: clean_elems r out elems.
Proof.
  intros elems out (_ & H0 & H1 & H2). revert out.
  assert (String.eqb c "" = false) as E0 by (apply String.eqb_neq; exact H0).
  assert (String.eqb c "." = false) as E1 by (apply String.eqb_neq; exact H1).
  assert (String.eqb c ".." = false) as E2 by (apply String.eqb_neq; exact H2).
  induction elems as [|e rest IH]; intros out; simpl.
  - rewrite E0, E1, E2. reflexivity.
  - destruct (String.eqb e "" || String.eqb e "."); [apply IH|].
    destruct (String.eqb e "..").
    + destruct out as [|top out'].
      * destruct r; apply IH.
      * destruct (String.eqb top ".."); apply IH.
    + apply IH.
Qed.

Lemma last_elem_Clean_snoc d c :
  plain_elem c -> last_elem (Clean (d +:+ String Separator c)) = c.
Proof.
  intros Hc. pose proof Hc as (Hsplit & Hne & _).
  unfold last_elem, Clean.
  rewrite split_app_sep, Hsplit, clean_elems_snoc by exact Hc.
  set (r := rooted (d +:+ String Separator c)).
  set (kept := clean_elems r [] (split d)).
  assert (Forall (fun e => split e = [e]) (rev kept ++ [c])) as Hall.
  { apply Forall_app. split.
    - apply Forall_rev. apply clean_elems_plain; [constructor|apply split_elems_plain].
    - constructor; [exact Hsplit|constructor]. }
  assert (split (String.concat "/" (rev (c :: kept))) = (rev kept ++ [c])%list) as Hbody.
  { simpl rev. apply split_concat; [|exact Hall].
    destruct (rev kept); discriminate. }
  set (body := String.concat "/" (rev (c :: kept))) in *.
  assert (List.last (split (if r then String Separator body else body)) "" = c) as Hlast.
  { destruct r.
    - change (split (String Separator body)) with (EmptyString :: split body).
      rewrite Hbody.
      change (EmptyString :: (rev kept ++ [c]))%list
        with ((EmptyString :: rev kept) ++ [c])%list.
      apply last_last.
    - rewrite Hbody. apply last_last. }
  destruct (String.eqb (if r then String Separator body else body) "") eqn:E.
  - apply String.eqb_eq in E. rewrite E in Hlast. simpl in Hlast. congruence.
  - exact Hlast.
Qed.

Lemma last_elem_Clean_plain c : plain_elem c -> last_elem (Clean c) = c.
Proof.
  intros (Hsplit & Hne & H1 & H2).
  unfold last_elem, Clean. rewrite Hsplit. simpl.
  assert (String.eqb c "" = false) as E0 by (apply String.eqb_neq; exact Hne).
  assert (String.eqb c "." = false) as E1 by (apply String.eqb_neq; exact H1).
  assert (String.eqb c ".." = false) as E2 by (apply String.eqb_neq; exact H2).
  rewrite E0, E1, E2. simpl.
  assert (rooted c = false) as Hr.
  { destruct c as [|a c']; [reflexivity|]. simpl.
    destruct (Ascii.eqb a Separator) eqn:E; [|reflexivity].
    simpl in Hsplit. rewrite E in Hsplit. inversion Hsplit. }
  rewrite Hr, E0, Hsplit. reflexivity.
Qed.

(** The directory a path is joined under does not reach its last element. *)
Lemma last_elem_Join d c : plain_elem c -> last_elem (Join [d; c]) = c.
Proof.
  intros Hc. pose proof Hc as (_ & Hne & _).
  simpl Join. destruct (String.eqb d "") eqn:Ed.
  - apply String.eqb_neq in Hne. rewrite Hne.
    change (String.concat "/" [c]) with c. apply last_elem_Clean_plain, Hc.
  - change (String.concat "/" [d; c]) with (d +:+ String Separator c).
    apply last_elem_Clean_snoc, Hc.
Qed.

End filepath_facts.

(** ** Runs *)

Module run_facts.
Import run.

Section Facts.
Context `{resource.Strings} `{workspace.Layout}.

(** *** The terminal-state predicate *)

(** X1.  [IsFinished] holds of exactly the four statuses its switch lists:
    [PlannedAndFinished], [Applied], [Errored] and [Canceled]. *)
Lemma IsFinished_true_iff (r : Run) :
  IsFinished r = true <->
  Status r = PlannedAndFinished \/ Status r = Applied \/
  Status r = Errored \/ Status r = Canceled.
Proof.
  unfold IsFinished.
  destruct (String.eqb_spec (Status r) PlannedAndFinished) as [->|N1]; [tauto|].
  destruct (String.eqb_spec (Status r) Applied) as [->|N2]; [tauto|].
  destruct (String.eqb_spec (Status r) Errored) as [->|N3]; [tauto|].
  destruct (String.eqb_spec (Status r) Canceled) as [->|N4]; [tauto|].
  split; [discriminate|]. intros [?|[?|[?|?]]]; congruence.
Qed.

(** *** What [updateStatus] and [setErrored] do *)

Lemma Status_updateStatus s r w : Status (updateStatus s r w).1 = s.
Proof. reflexivity. Qed.

Lemma Error_updateStatus s r w : Error (updateStatus s r w).1 = Error r.
Proof. reflexivity. Qed.

Lemma Updated_updateStatus s r w :
  Updated (updateStatus s r w).1 = clock w (ticks w).
Proof. reflexivity. Qed.

Lemma Status_setErrored err r w : Status (setErrored err r w).1 = Errored.
Proof. reflexivity. Qed.

Lemma Error_setErrored err r w : Error (setErrored err r w).1 = err.
Proof. reflexivity. Qed.

(** An update that [keeps_error] allows preserves the invariant. *)
Lemma apply_update_keeps u r w :
  keeps_error u r = true ->
  error_iff_errored r ->
  error_iff_errored (apply_update u r w).1.
Proof.
  unfold error_iff_errored. destruct u as [s|err]; simpl; intros Hk Hinv.
  - apply andb_true_iff in Hk as [Hs Hr].
    apply negb_true_iff, String.eqb_neq in Hs.
    apply negb_true_iff, String.eqb_neq in Hr.
    split; [|intros; contradiction].
    intros He. apply Hinv in He. contradiction.
  - apply bool_decide_eq_true in Hk. split; [reflexivity|intros _; exact Hk].
Qed.

Lemma apply_updates_keep us : forall r w,
  all_keep_error us r w = true ->
  error_iff_errored r ->
  error_iff_errored (apply_updates us r w).1.
Proof.
  induction us as [|u us IH]; intros r w Hall Hinv; simpl in *; [exact Hinv|].
  apply andb_true_iff in Hall as [Hu Hrest].
  pose proof (apply_update_keeps u r w Hu Hinv) as Hstep.
  destruct (apply_update u r w) as [r1 w1]. simpl in Hstep.
  apply IH; assumption.
Qed.

(** *** What [newRun] returns *)


Lemma mkdir_all_keeps deny chain ds d :
  d ∈ ds -> d ∈ (mkdir_all deny chain ds).2.
Proof.
  revert ds. induction chain as [|p above IH]; intros ds Hd; simpl.
  - exact Hd.
  - destruct (bool_decide (dir_name p ∈ ds)); [exact Hd|].
    specialize (IH ds Hd). destruct (mkdir_all deny above ds) as [[err|] ds'];
      simpl in IH; [exact IH|].
    destruct (deny (dir_name p)).
    + destruct (bool_decide (dir_name p ∈ ds')); exact IH.
    + simpl. apply elem_of_cons. right. exact IH.
Qed.

Lemma mkdir_all_makes deny p above ds :
  (mkdir_all deny (p :: above) ds).1 = None ->
  dir_name p ∈ (mkdir_all deny (p :: above) ds).2.
Proof.
  simpl. destruct (bool_decide (dir_name p ∈ ds)) eqn:Hin.
  - intros _. apply bool_decide_eq_true in Hin. exact Hin.
  - destruct (mkdir_all deny above ds) as [[err|] ds']; [discriminate|].
    destruct (deny (dir_name p)).
    + destruct (bool_decide (dir_name p ∈ ds')) eqn:Hin'; [|discriminate].
      intros _. apply bool_decide_eq_true in Hin'. exact Hin'.
    + intros _. simpl. apply elem_of_cons. left. reflexivity.
Qed.

(** What the call makes is a directory of the chain: the path or one of its
    parents. *)
Lemma mkdir_all_made deny chain ds d :
  d ∈ (mkdir_all deny chain ds).2 -> d ∈ ds \/ d ∈ dir_name <$> chain.
Proof.
  revert ds. induction chain as [|p above IH]; intros ds; simpl.
  - intros Hd. left. exact Hd.
  - destruct (bool_decide (dir_name p ∈ ds)); [intros Hd; left; exact Hd|].
    specialize (IH ds). destruct (mkdir_all deny above ds) as [[err|] ds'];
      simpl in IH.
    + intros Hd. destruct (IH Hd) as [Hd'|Hd']; [left; exact Hd'|].
      right. apply elem_of_cons. right. exact Hd'.
    + assert (d ∈ ds' -> d ∈ ds \/ d ∈ dir_name p :: (dir_name <$> above))
        as Hrest.
      { intros Hd. destruct (IH Hd) as [Hd'|Hd']; [left; exact Hd'|].
        right. apply elem_of_cons. right. exact Hd'. }
      destruct (deny (dir_name p)).
      * destruct (bool_decide (dir_name p ∈ ds')); exact Hrest.
      * simpl. intros Hd. apply elem_of_cons in Hd as [->|Hd].
        -- right. apply elem_of_cons. left. reflexivity.
        -- apply Hrest. exact Hd.
Qed.


(** [MkdirAll] touches the directories only, and looks at nothing else. *)
Lemma MkdirAll_spec path w :
  MkdirAll path w
  = ((mkdir_all (mkdir_error w) (path :: parents path) (dirs w)).1,
     {| next_id := next_id w; clock := clock w; ticks := ticks w;
        mkdir_error := mkdir_error w;
        dirs := (mkdir_all (mkdir_error w) (path :: parents path) (dirs w)).2;
        events := events w |}).
Proof.
  unfold MkdirAll. destruct (mkdir_all _ _ _) as [err ds]. reflexivity.
Qed.

(** [newRun] returns a run exactly when the workspace has a parent and the
    directory can be made; the run it returns is this one. *)
Lemma newRun_Ok_inv mod_ ws opts w r w' :
  newRun mod_ ws opts w = (Ok r, w') ->
  r = {| Resource :=
           resource.mkResource (next_id w) resource.Run ""
             (Some (workspace.Resource ws));
         Created := clock w (ticks w);
         Updated := clock w (S (ticks w));
         Status := Pending;
         AutoApply := workspace.AutoApply ws;
         PlanOnly := false;
         PlanReport := Report_zero;
         ApplyReport := Report_zero;
         PlanTask := None;
         ApplyTask := None;
         Error := None;
         afterUpdate := opt_afterUpdate opts |}
  /\ is_Some (resource.Parent (workspace.Resource ws)).
Proof.
  unfold newRun. simpl.
  match goal with |- context [ModulePath ?x] => set (r0 := x) end.
  unfold ModulePath, Module, Workspace, PugDirectory, Workspace. simpl.
  destruct (resource.Parent (workspace.Resource ws)) as [m|] eqn:Hp; simpl;
    [|discriminate].
  destruct (MkdirAll _ _) as [[err|] w2]; intros Heq; inversion Heq; subst.
  split; [reflexivity|eauto].
Qed.



(** What does hold of the two setters.  [setErrored err] leaves
    [Error = err] and [Status = Errored]; [updateStatus s] leaves
    [Status = s] and does not touch [Error]; and a run on which [Error] is
    set exactly when the status is [Errored] stays so under every sequence
    of updates in which [updateStatus] neither enters nor leaves [Errored]
    and [setErrored] is handed a non-nil error. *)
Lemma error_iff_errored_kept (us : list update) (r : Run) (w : World) :
  error_iff_errored r ->
  all_keep_error us r w = true ->
  error_iff_errored (apply_updates us r w).1
  /\ (forall err r w,
        Error (setErrored err r w).1 = err /\
        Status (setErrored err r w).1 = Errored)
  /\ (forall s r w,
        Error (updateStatus s r w).1 = Error r /\
        Status (updateStatus s r w).1 = s).
Proof.
  intros Hinv Hall. split; [|split].
  - apply apply_updates_keep; assumption.
  - intros. split; reflexivity.
  - intros. split; reflexivity.
Qed.

(** C2, at the status the predicate misses: a run whose status has just
    been set to [Discarded] is not finished for [IsFinished]. *)
Theorem IsFinished_Discarded (r : Run) (w : World) :
  Status (updateStatus Discarded r w).1 = Discarded /\
  IsFinished (updateStatus Discarded r w).1 = false.
Proof. split; reflexivity. Qed.

(** C3, at the status the predicate misses: [updateStatus Discarded] calls
    the registered function once and writes no completion record. *)
Theorem updateStatus_Discarded_no_log (r : Run) (w : World) :
  events (updateStatus Discarded r w).2
  = match afterUpdate r with
    | Some cb => AfterUpdate cb (updateStatus Discarded r w).1 :: events w
    | None => events w
    end.
Proof. unfold updateStatus. simpl. destruct (afterUpdate r); reflexivity. Qed.

(** X2.  [updateStatus s] on a run with a registered function: the status is
    [s], [Updated] is the reading of the clock, the function is called once
    with the updated run, and after it a completion record is written
    exactly when [IsFinished] holds of the new status. *)
Theorem updateStatus_effects (s : status) (r : Run) (w : World) (cb : Callback) :
  afterUpdate r = Some cb ->
  let r' := (updateStatus s r w).1 in
  let w' := (updateStatus s r w).2 in
  Status r' = s
  /\ Updated r' = clock w (ticks w)
  /\ ticks w' = S (ticks w)
  /\ events w' =
       ((if IsFinished r' then [LogInfo "completed run" s (LogValue r')] else [])
        ++ AfterUpdate cb r' :: events w)%list.
Proof.
  intros Hcb. unfold updateStatus. simpl. rewrite Hcb.
  match goal with |- context [IsFinished ?x] => destruct (IsFinished x) end;
    repeat split.
Qed.

(** C5.  A run that [newRun] returns is [Pending], carries the workspace's
    [AutoApply], and has [Created] and [Updated] set to the two readings of
    the clock taken while it was made. *)
Theorem newRun_initial_state mod_ ws opts w r w' :
  newRun mod_ ws opts w = (Ok r, w') ->
  Status r = Pending
  /\ AutoApply r = workspace.AutoApply ws
  /\ Created r = clock w (ticks w)
  /\ Updated r = clock w (S (ticks w)).
Proof.
  intros Hnew. apply newRun_Ok_inv in Hnew as [-> _]. repeat split.
Qed.

(** C7.  A run that [newRun] returns has kind [Run]; [Workspace()] is the
    workspace's resource, [WorkspaceName()] its string form, and [Module()]
    the resource the workspace's parent refers to. *)
Theorem newRun_resource_tree mod_ ws opts w r w' :
  newRun mod_ ws opts w = (Ok r, w') ->
  resource.Kind (Resource r) = resource.Run
  /\ Workspace r = Some (workspace.Resource ws)
  /\ WorkspaceName r = Some (resource.Resource_String (workspace.Resource ws))
  /\ Module r = resource.Parent (workspace.Resource ws)
  /\ is_Some (Module r).
Proof.
  intros Hnew. apply newRun_Ok_inv in Hnew as [-> Hp]. repeat split; exact Hp.
Qed.


End Facts.

End run_facts.

(** ** The runs of the small installation *)

Module run_scenarios.
Import run scenario.

Lemma tally_inj i j : tally i = tally j -> i = j.
Proof.
  revert j. induction i as [|i IH]; intros [|j] Heq; simpl in Heq;
    try discriminate; [reflexivity|].
  f_equal. apply IH. congruence.
Qed.

Lemma id_string_inj i j : id_string i = id_string j -> i = j.
Proof. unfold id_string. intros Heq. apply tally_inj. congruence. Qed.

Lemma split_tally n : filepath.split (tally n) = [tally n].
Proof. induction n as [|n IH]; simpl; [reflexivity|]. rewrite IH. reflexivity. Qed.

Lemma id_string_plain i : filepath.plain_elem (id_string i).
Proof.
  unfold filepath.plain_elem, id_string. simpl. rewrite split_tally.
  repeat split; discriminate.
Qed.

Example newRun_scenario :
  newRun mod0 ws0 plan_only world0 = (Ok run0, world1).
Proof. reflexivity. Qed.

Example PlanPath_scenario : PlanPath run0 = Some ".pug/dev/rxx/plan.out".
Proof. reflexivity. Qed.


(** The other two ways of parting [Error] from the status: [setErrored]
    with a nil error, and a status update after an error was captured. *)
Example setErrored_nil :
  Status (setErrored None run0 world1).1 = Errored
  /\ Error (setErrored None run0 world1).1 = None.
Proof. split; reflexivity. Qed.

Example updateStatus_after_error :
  let '(r, w) := setErrored (Some "exit status 1") run0 world1 in
  Status (updateStatus Planned r w).1 = Planned
  /\ Error (updateStatus Planned r w).1 = Some "exit status 1".
Proof. split; reflexivity. Qed.

(** A run that goes through planning and fails there, updated as the
    package means its setters to be used. *)
Example error_iff_errored_kept_scenario :
  error_iff_errored
    (apply_updates
       [UpdateStatus Scheduled; UpdateStatus PlanQueued; UpdateStatus Planning;
        SetErrored (Some "exit status 1")] run0 world1).1
  /\ Status
       (apply_updates
          [UpdateStatus Scheduled; UpdateStatus PlanQueued; UpdateStatus Planning;
           SetErrored (Some "exit status 1")] run0 world1).1 = Errored.
Proof.
  split; [|reflexivity].
  refine (proj1 (run_facts.error_iff_errored_kept _ run0 world1 _ _)).
  - split; [intros [e He]; discriminate He | discriminate].
  - reflexivity.
Qed.

(** C4, at a concrete input: [newRun] is handed [PlanOnly = true] and
    returns a run whose [PlanOnly] is false. *)
Theorem newRun_PlanOnly_not_copied :
  opt_PlanOnly plan_only = true
  /\ newRun mod0 ws0 plan_only world0 = (Ok run0, world1)
  /\ PlanOnly run0 = false.
Proof. repeat split. Qed.

Lemma updateStatus_effects_witness :
  Status (updateStatus Applied run0 world1).1 = Applied
  /\ Updated (updateStatus Applied run0 world1).1 = 102
  /\ ticks (updateStatus Applied run0 world1).2 = 3%nat
  /\ events (updateStatus Applied run0 world1).2
     = [LogInfo "completed run" Applied
          (Some {| log_id := "rxx"; log_workspace := "dev"; log_module := "infra" |});
        AfterUpdate 7%nat (updateStatus Applied run0 world1).1].
Proof.
  exact (run_facts.updateStatus_effects Applied run0 world1 7%nat eq_refl).
Defined.

Lemma newRun_initial_state_witness :
  Status run0 = Pending
  /\ AutoApply run0 = workspace.AutoApply ws0
  /\ Created run0 = 100
  /\ Updated run0 = 101.
Proof.
  exact (run_facts.newRun_initial_state mod0 ws0 plan_only world0 run0 world1 eq_refl).
Defined.

Lemma newRun_resource_tree_witness :
  resource.Kind (Resource run0) = resource.Run
  /\ Workspace run0 = Some (workspace.Resource ws0)
  /\ WorkspaceName run0 = Some "dev"
  /\ Module run0 = Some mod_resource
  /\ is_Some (Module run0).
Proof.
  exact (run_facts.newRun_resource_tree mod0 ws0 plan_only world0 run0 world1 eq_refl).
Defined.




End run_scenarios.

(** ** The table of entities *)

Module table_facts.
Import table.

Section Facts.
Context {T : Type} `{Item T}.

Lemma Highlighted_UpdateViewport (m : Model T) sel all :
  Highlighted (UpdateViewport (set_Selected sel all m)) = Highlighted m.
Proof. reflexivity. Qed.

(** A highlighted row exists exactly when the cursor is on a row, and then
    it is that row's entity. *)
Lemma Highlighted_ok (m : Model T) (e : T) :
  Highlighted m = (e, true) <->
  0 <= cursor m < len (rows m) /\
  exists row, rows m !! Z.to_nat (cursor m) = Some row /\ Entity row = e.
Proof.
  unfold Highlighted.
  destruct (Z.ltb_spec (cursor m) 0) as [Hlt|Hge]; simpl.
  { split; [discriminate|]. intros [[? ?] _]. lia. }
  destruct (Z.geb_spec (cursor m) (len (rows m))) as [Hhi|Hlo]; simpl.
  { split; [discriminate|]. intros [[? ?] _]. lia. }
  destruct (rows m !! Z.to_nat (cursor m)) as [row|] eqn:Hrow.
  - split.
    + intros Heq. inversion Heq. split; [lia|eauto].
    + intros [_ (row' & Hr & <-)]. congruence.
  - split; [discriminate|]. intros [_ (row' & Hr & _)]. discriminate.
Qed.

(** X4.  What [ToggleSelection] stores for a row that was not selected: the
    zero value the failed lookup gave, under the key of the entity. *)
Lemma ToggleSelection_unselected (m : Model T) (e : T) :
  selectable m = true ->
  Highlighted m = (e, true) ->
  Selected m !! ID e = None ->
  Selected (ToggleSelection m) = <[ID e := zero]> (Selected m).
Proof.
  intros Hsel Hhi Hnone. unfold ToggleSelection, lookup_ok.
  rewrite Hsel, Hhi. simpl. rewrite Hnone. reflexivity.
Qed.

Lemma ToggleSelection_selected (m : Model T) (e : T) :
  selectable m = true ->
  Highlighted m = (e, true) ->
  is_Some (Selected m !! ID e) ->
  Selected (ToggleSelection m) = delete (ID e) (Selected m).
Proof.
  intros Hsel Hhi [v Hv]. unfold ToggleSelection, lookup_ok.
  rewrite Hsel, Hhi. simpl. rewrite Hv. reflexivity.
Qed.

(** Toggling twice gives the selection back. *)
Lemma ToggleSelection_twice (m : Model T) (e : T) :
  selectable m = true ->
  Highlighted m = (e, true) ->
  Selected m !! ID e = None ->
  Selected (ToggleSelection (ToggleSelection m)) = Selected m.
Proof.
  intros Hsel Hhi Hnone.
  assert (ToggleSelection m
          = UpdateViewport
              (set_Selected (<[ID e := zero]> (Selected m)) (selectAll m) m))
    as Hfirst.
  { unfold ToggleSelection, lookup_ok. rewrite Hsel, Hhi. simpl.
    rewrite Hnone. reflexivity. }
  rewrite Hfirst.
  rewrite (ToggleSelection_selected _ e).
  - simpl. rewrite delete_insert_id by exact Hnone. reflexivity.
  - exact Hsel.
  - rewrite Highlighted_UpdateViewport. exact Hhi.
  - simpl. rewrite lookup_insert_eq. eauto.
Qed.

End Facts.

End table_facts.

Module table_scenarios.
Import table scenario.

(** C8, at a concrete table: the highlighted row holds [dev], which is not
    selected; after [ToggleSelection] the key of [dev] is selected, but what
    is stored under it is the zero value of the entity type, not [dev].
    Toggling again removes the key. *)
Theorem ToggleSelection_stores_zero :
  Highlighted entities = (dev, true)
  /\ Selected entities !! ID dev = None
  /\ Selected (ToggleSelection entities) !! ID dev
     = Some {| entity_id := 0%nat; entity_name := "" |}
  /\ Selected (ToggleSelection entities) !! ID dev <> Some dev
  /\ Selected (ToggleSelection (ToggleSelection entities)) !! ID dev = None.
Proof. repeat split. discriminate. Qed.

(** [ToggleSelectAll], the sibling, stores the entity itself. *)
Example ToggleSelectAll_stores_entity :
  Selected (ToggleSelectAll entities) !! ID dev = Some dev.
Proof. reflexivity. Qed.

Lemma ToggleSelection_unselected_witness :
  Selected (ToggleSelection entities) = <[ID dev := zero]> (Selected entities).
Proof.
  exact (table_facts.ToggleSelection_unselected entities dev eq_refl eq_refl eq_refl).
Defined.

End table_scenarios.

(** ** The table of keyed rows *)

Module table_kv_facts.
Import table_kv.

Section Facts.
Context {K V : Type} `{Countable K}.

(** [scan] asks for a range that ends within the rows. *)
Lemma scan_high (m : Model K V) (rs : list (Row K V)) : forall i first,
  first <= i ->
  0 <= (scan m rs i first).2 /\
  (scan m rs i first).1 + (scan m rs i first).2 <= i + len rs.
Proof.
  unfold len.
  induction rs as [|row rest IH]; intros i first Hle; simpl scan.
  - simpl. lia.
  - rewrite length_cons, Nat2Z.inj_succ.
    destruct ((i =? cursor m) && (first >? -1) && (first <? cursor m)) eqn:Hbrk.
    + apply andb_true_iff in Hbrk as [Hbrk Hlt].
      apply andb_true_iff in Hbrk as [Hi _].
      apply Z.eqb_eq in Hi. apply Z.ltb_lt in Hlt. simpl. lia.
    + destruct (Selected m !! Key row).
      * destruct (Z.gtb_spec i (cursor m)).
        -- simpl. lia.
        -- specialize (IH (i + 1) (i + 1) ltac:(lia)). lia.
      * specialize (IH (i + 1) first ltac:(lia)). lia.
Qed.

(** With no selected key among the rows, [scan] finds no first row. *)
Lemma scan_none_selected (m : Model K V) (rs : list (Row K V)) : forall i,
  Forall (fun row => Selected m !! Key row = None) rs ->
  scan m rs i (-1) = (-1, 0).
Proof.
  induction rs as [|row rest IH]; intros i Hall; simpl; [reflexivity|].
  inversion Hall as [|? ? Hrow Hrest]; subst.
  rewrite Hrow.
  replace ((i =? cursor m) && (-1 >? -1) && (-1 <? cursor m)) with false
    by (rewrite andb_false_r; reflexivity).
  apply IH, Hrest.
Qed.

(** [SelectRange] panics exactly when it is at work and [scan] leaves the
    first row below zero. *)
Lemma SelectRange_Panicked_iff (m : Model K V) :
  SelectRange m = Panicked <->
  selectable m = true /\ size (Selected m) <> 0%nat /\
  (scan m (rows m) 0 (-1)).1 < 0.
Proof.
  unfold SelectRange.
  destruct (selectable m); simpl; [|split; [discriminate|intros [? _]; discriminate]].
  destruct (Nat.eqb_spec (size (Selected m)) 0) as [Hz|Hnz].
  { split; [discriminate|]. intros (_ & Hne & _). contradiction. }
  pose proof (scan_high m (rows m) 0 (-1) ltac:(lia)) as [Hn Hhigh].
  destruct (scan m (rows m) 0 (-1)) as [first n]. simpl in *.
  unfold slice.
  destruct (Z.ltb_spec first 0) as [Hneg|Hpos]; simpl.
  { split; [intros _; repeat split; [exact Hnz|exact Hneg]|reflexivity]. }
  destruct (Z.ltb_spec (first + n) first); [lia|].
  destruct (Z.gtb_spec (first + n) (len (rows m))); [lia|]. simpl.
  split; [discriminate|]. intros (_ & _ & Hlt). lia.
Qed.

(** X5.  Selected keys, none of them the key of a row: [SelectRange] slices the
    rows from [-1] and panics. *)
Lemma SelectRange_no_selected_row (m : Model K V) :
  selectable m = true ->
  size (Selected m) <> 0%nat ->
  Forall (fun row => Selected m !! Key row = None) (rows m) ->
  SelectRange m = Panicked.
Proof.
  intros Hsel Hne Hall. apply SelectRange_Panicked_iff.
  repeat split; [exact Hsel|exact Hne|].
  rewrite scan_none_selected by exact Hall. simpl. lia.
Qed.

End Facts.

End table_kv_facts.

Module table_kv_scenarios.
Import table_kv scenario.

(** C9, at a state the table reaches: two items, the filter shows one, the
    hidden one is selected by its key; [SelectRange] then panics. *)
Theorem SelectRange_panics_on_hidden_selection :
  rows filtered = [ {| Key := 1%nat; Value := "dev" |} ]
  /\ cursor hidden_selected = 0
  /\ Selected hidden_selected = {[ 2%nat := "prod" ]}
  /\ scan hidden_selected (rows hidden_selected) 0 (-1) = (-1, 0)
  /\ SelectRange hidden_selected = Panicked
  /\ Update_SelectRange hidden_selected = Panicked.
Proof. vm_compute. repeat split. Qed.

Lemma SelectRange_no_selected_row_witness :
  SelectRange hidden_selected = Panicked.
Proof.
  apply table_kv_facts.SelectRange_no_selected_row.
  - reflexivity.
  - vm_compute. discriminate.
  - vm_compute. repeat constructor.
Defined.

End table_kv_scenarios.

(** ** The logger *)

Module logging_facts.
Import logging.

Section Facts.
Context {F : Type} `{io.Writer F} `{logfmt.Decoder} `{TimeParser}.

Lemma uint_succ_small (n : N) : (n + 1 < 2 ^ 64)%N -> uint_succ n = (n + 1)%N.
Proof. intros Hlt. unfold uint_succ. apply N.mod_small, Hlt. Qed.

(** A key and its value leave the serial of the message alone; the only
    error is a time that does not parse. *)
Lemma scanKeyval_inv (msg : Message) (kv : string * string) :
  match scanKeyval msg kv with
  | inl msg' => serial msg' = serial msg
  | inr err => exists cause, err = "parsing time: " +:+ cause
  end.
Proof.
  unfold scanKeyval. destruct kv as [key value].
  destruct (String.eqb key "time").
  - destruct (time_Parse value); [reflexivity|eauto].
  - destruct (String.eqb key "level"); [reflexivity|].
    destruct (String.eqb key "msg"); reflexivity.
Qed.

Lemma scanKeyvals_inv (kvs : logfmt.record) : forall msg,
  match scanKeyvals msg kvs with
  | inl msg' => serial msg' = serial msg
  | inr err => exists cause, err = "parsing time: " +:+ cause
  end.
Proof.
  induction kvs as [|kv rest IH]; intros msg; simpl; [reflexivity|].
  pose proof (scanKeyval_inv msg kv) as Hkv.
  destruct (scanKeyval msg kv) as [msg1|err]; [|exact Hkv].
  specialize (IH msg1). destruct (scanKeyvals msg1 rest); [congruence|exact IH].
Qed.

(** The loop over the records, as long as the serial does not wrap: it
    leaves [Messages] and the file alone; when it runs to the end it has
    made one message per record, with the serials from the logger's on, and
    when it returns early the error is a time that does not parse. *)
Lemma scanRecords_inv (recs : list logfmt.record) : forall st : scanning (F:=F),
  (Logger_serial (scan_logger st) + N.of_nat (length recs) < 2 ^ 64)%N ->
  serials_below (scan_logger st) ->
  match scanRecords recs st with
  | inl st' =>
      exists new,
        scan_msgs st' = (scan_msgs st ++ new)%list
        /\ length new = length recs
        /\ Messages (scan_logger st') = Messages (scan_logger st)
        /\ file (scan_logger st') = file (scan_logger st)
        /\ Logger_serial (scan_logger st')
           = (Logger_serial (scan_logger st) + N.of_nat (length recs))%N
        /\ Forall (fun m => (Logger_serial (scan_logger st) <= serial m)%N) new
        /\ StronglySorted (fun a b => (serial a < serial b)%N) new
        /\ serials_below (scan_logger st')
  | inr (err, st') =>
      (exists cause : string, err = "parsing time: " +:+ cause)
      /\ Messages (scan_logger st') = Messages (scan_logger st)
      /\ file (scan_logger st') = file (scan_logger st)
      /\ serials_below (scan_logger st')
  end.
Proof.
  induction recs as [|rec rest IH]; intros st Hfit Hbelow.
  - simpl. exists []. rewrite app_nil_r, N.add_0_r.
    repeat split; try constructor. exact Hbelow.
  - simpl scanRecords.
    set (l := scan_logger st) in *.
    set (msg0 := {| Time := 0; Level := ""; Msg := ""; Attributes := [];
                    Resource := resource.mkResource (scan_ids st) resource.Log "" None;
                    serial := Logger_serial l |}).
    pose proof (scanKeyvals_inv rec msg0) as Hkv.
    destruct (scanKeyvals msg0 rec) as [msg|err].
    + simpl in Hkv.
      assert (uint_succ (Logger_serial l) = (Logger_serial l + 1)%N) as Hsucc.
      { apply uint_succ_small. simpl length in Hfit. lia. }
      match goal with |- context [scanRecords rest ?x] => set (st1 := x) end.
      assert (serials_below (scan_logger st1)) as Hbelow1.
      { unfold serials_below, st1. simpl. rewrite Hsucc. constructor; [lia|].
        eapply Forall_impl; [exact Hbelow|]. simpl. intros m Hm.
        fold l in Hm. lia. }
      specialize (IH st1). unfold st1 at 1 in IH. simpl scan_logger in IH.
      simpl Logger_serial in IH. rewrite Hsucc in IH.
      specialize (IH ltac:(simpl length in Hfit; lia)).
      unfold st1 at 1 in Hbelow1. simpl scan_logger in Hbelow1.
      rewrite Hsucc in Hbelow1. specialize (IH Hbelow1).
      destruct (scanRecords rest st1) as [st'|[err st']].
      * destruct IH as (new & Hmsgs & Hlen & HM & Hf & Hser & Hge & Hsorted & Hb').
        exists (msg :: new). unfold st1 in Hmsgs. simpl in Hmsgs.
        rewrite <- app_assoc in Hmsgs. simpl in Hmsgs.
        repeat split.
        -- exact Hmsgs.
        -- simpl. congruence.
        -- exact HM.
        -- exact Hf.
        -- rewrite Hser. simpl length. lia.
        -- constructor; [lia|].
           eapply Forall_impl; [exact Hge|]. simpl. intros m Hm. lia.
        -- constructor; [exact Hsorted|].
           eapply Forall_impl; [exact Hge|]. simpl. intros m Hm. lia.
        -- exact Hb'.
      * exact IH.
    + simpl. repeat split; [exact Hkv|exact Hbelow].
Qed.





(** Whatever [Write] returns, the serials given out stay below the next
    one, so the bound holds again for the next call. *)
Lemma Write_serials_below (p : list Byte.byte) (l : Logger F) (ids : resource.ID) :
  (Logger_serial l + N.of_nat (length (logfmt.Decode p).1) < 2 ^ 64)%N ->
  serials_below l ->
  serials_below (logging.Write p l ids).1.2.
Proof.
  unfold logging.Write. intros Hfit Hbelow.
  destruct (logfmt.Decode p) as [recs derr]. simpl in Hfit.
  pose proof (scanRecords_inv recs
                {| scan_logger := l; scan_ids := ids; scan_msgs := [] |}
                Hfit Hbelow) as Hscan.
  destruct (scanRecords recs _) as [st|[e st]]; simpl in Hscan.
  - destruct Hscan as (new & _ & _ & _ & _ & _ & _ & _ & Hb').
    destruct derr as [e|]; [exact Hb'|].
    destruct (io.Write (file (scan_logger st)) p) as [[cnt werr] f].
    destruct werr; exact Hb'.
  - destruct Hscan as (_ & _ & _ & Hb'). exact Hb'.
Qed.

Lemma NewLogger_serials_below (f : F) : serials_below (NewLogger f).
Proof. constructor. Qed.

End Facts.

End logging_facts.

Module logging_scenarios.
Import logging scenario.

Example Write_started :
  logging.Write started (NewLogger (Some [])) 10%nat
  = ((Z.of_nat (length started), None),
     {| Messages :=
          [ {| Time := 1706781600; Level := "info"; Msg := "started";
               Attributes := [ {| Key := "run"; Value := "rxx" |} ];
               Resource := resource.mkResource 10%nat resource.Log "" None;
               serial := 0%N |} ];
        published :=
          [ {| Time := 1706781600; Level := "info"; Msg := "started";
               Attributes := [ {| Key := "run"; Value := "rxx" |} ];
               Resource := resource.mkResource 10%nat resource.Log "" None;
               serial := 0%N |} ];
        file := Some started;
        Logger_serial := 1%N |},
     11%nat).
Proof. vm_compute. reflexivity. Qed.

Example Write_bad_time :
  logging.Write bad_time (NewLogger (Some [])) 10%nat
  = ((0, Some "parsing time: cannot parse yesterday"),
     NewLogger (Some []), 11%nat).
Proof. vm_compute. reflexivity. Qed.

(** The file's own error is a third kind: on a logger whose file could not
    be opened, [Write] returns it, with the count 0, after the message was
    appended. *)
Example Write_file_error :
  (logging.Write started (NewLogger None) 10%nat).1.1
  = (0, Some "invalid argument")
  /\ Messages (NewLogger (F:=option (list Byte.byte)) None) = []
  /\ length (Messages (logging.Write started (NewLogger None) 10%nat).1.2) = 1%nat.
Proof. vm_compute. repeat split. Qed.

End logging_scenarios.

(** ** Creating runs, and entering [Errored] *)

Module run_creation_facts.
Import run.

Section Facts.
Context `{resource.Strings} `{workspace.Layout}.

(** [newRun] on a workspace below the module [m], in one equation: the
    world moves on by one identifier and two readings of the clock, and the
    outcome and the directories are those of [os.MkdirAll]. *)
Lemma newRun_with_module mod_ ws opts w m :
  resource.Parent (workspace.Resource ws) = Some m ->
  let path := pugdir_of ws m (next_id w) in
  let made := mkdir_all (mkdir_error w) (path :: parents path) (dirs w) in
  newRun mod_ ws opts w
  = (match made.1 with
     | Some err => Err err
     | None =>
         Ok {| Resource :=
                 resource.mkResource (next_id w) resource.Run ""
                   (Some (workspace.Resource ws));
               Created := clock w (ticks w);
               Updated := clock w (S (ticks w));
               Status := Pending;
               AutoApply := workspace.AutoApply ws;
               PlanOnly := false;
               PlanReport := Report_zero;
               ApplyReport := Report_zero;
               PlanTask := None;
               ApplyTask := None;
               Error := None;
               afterUpdate := opt_afterUpdate opts |}
     end,
     {| next_id := S (next_id w); clock := clock w; ticks := S (S (ticks w));
        mkdir_error := mkdir_error w; dirs := made.2; events := events w |}).
Proof.
  intros Hp path made. subst path made. unfold newRun, pugdir_of.
  unfold Now, ModulePath, Module, Workspace, PugDirectory, Workspace.
  cbn -[filepath.Join mkdir_all]. rewrite Hp. cbn -[filepath.Join mkdir_all].
  rewrite run_facts.MkdirAll_spec. cbn -[filepath.Join mkdir_all].
  destruct (mkdir_all _ _ _) as [[err|] ds]; reflexivity.
Qed.

(** X6.  When [os.MkdirAll] fails on the run's directory, [newRun] returns
    that error and no run.  The directories are left as [MkdirAll] left
    them: the parents it made before it failed stay behind, and no
    directory that was there is lost.  Nothing is logged or called back. *)
Theorem newRun_MkdirAll_error mod_ ws opts w m err wd :
  resource.Parent (workspace.Resource ws) = Some m ->
  MkdirAll (pugdir_of ws m (next_id w)) w = (Some err, wd) ->
  exists w', newRun mod_ ws opts w = (Err err, w')
             /\ dirs w' = dirs wd
             /\ (forall d, d ∈ dirs w -> d ∈ dirs w')
             /\ events w' = events w.
Proof.
  intros Hp Hfail. rewrite run_facts.MkdirAll_spec in Hfail.
  rewrite (newRun_with_module mod_ ws opts w m Hp). cbn zeta.
  pose proof (run_facts.mkdir_all_keeps (mkdir_error w)
                (pugdir_of ws m (next_id w) :: parents (pugdir_of ws m (next_id w)))
                (dirs w)) as Hkeep.
  remember (mkdir_all _ _ _) as made eqn:Hmade. clear Hmade.
  destruct made as [e ds]. cbn [fst snd] in *.
  injection Hfail as -> <-. eexists. split; [reflexivity|].
  cbn [dirs events]. split; [reflexivity|]. split; [exact Hkeep|reflexivity].
Qed.

(** X7.  After a successful [newRun] the run's directory is there: the
    module's path joined with the run's [PugDirectory()] is a directory,
    every directory that was there still is, and whatever else is new is
    one of its parents.  [newRun] reads the clock twice and neither calls
    the registered function nor logs. *)
Theorem newRun_makes_directory mod_ ws opts w r w' :
  newRun mod_ ws opts w = (Ok r, w') ->
  exists modpath dir,
    ModulePath r = Some modpath
    /\ PugDirectory r = Some dir
    /\ dir_name (filepath.Join [modpath; dir]) ∈ dirs w'
    /\ (forall d, d ∈ dirs w -> d ∈ dirs w')
    /\ (forall d, d ∈ dirs w' ->
          d ∈ dirs w
          \/ d ∈ dir_name <$> filepath.Join [modpath; dir]
                               :: parents (filepath.Join [modpath; dir]))
    /\ ticks w' = S (S (ticks w))
    /\ events w' = events w.
Proof.
  intros Hnew.
  destruct (run_facts.newRun_Ok_inv _ _ _ _ _ _ Hnew) as [_ [m Hp]].
  rewrite (newRun_with_module mod_ ws opts w m Hp) in Hnew. cbn zeta in Hnew.
  pose proof (run_facts.mkdir_all_makes (mkdir_error w)
                (pugdir_of ws m (next_id w)) (parents (pugdir_of ws m (next_id w)))
                (dirs w)) as Hmakes.
  pose proof (run_facts.mkdir_all_keeps (mkdir_error w)
                (pugdir_of ws m (next_id w) :: parents (pugdir_of ws m (next_id w)))
                (dirs w)) as Hkeep.
  pose proof (run_facts.mkdir_all_made (mkdir_error w)
                (pugdir_of ws m (next_id w) :: parents (pugdir_of ws m (next_id w)))
                (dirs w)) as Hmade.
  remember (mkdir_all _ _ _) as made eqn:Hm. clear Hm.
  destruct made as [[err|] ds]; cbn [fst snd] in *; [discriminate|].
  injection Hnew as <- <-.
  exists (resource.Resource_String m),
    (filepath.Join
       [workspace.PugDirectory (resource.Resource_String (workspace.Resource ws));
        resource.ID_String (next_id w)]).
  unfold ModulePath, Module, Workspace, PugDirectory, Workspace.
  cbn -[filepath.Join mkdir_all]. rewrite Hp.
  split; [reflexivity|]. split; [reflexivity|].
  split; [exact (Hmakes eq_refl)|].
  split; [exact Hkeep|].
  split; [exact Hmade|].
  split; reflexivity.
Qed.

(** X8.  On a workspace without a parent, [newRun] panics: [Module()]
    dereferences the nil parent before any directory is made. *)
Theorem newRun_without_module_panics mod_ ws opts w :
  resource.Parent (workspace.Resource ws) = None ->
  exists w', newRun mod_ ws opts w = (Panicked, w') /\ dirs w' = dirs w.
Proof.
  intros Hp. unfold newRun. simpl.
  unfold ModulePath, Module, Workspace. simpl. rewrite Hp. simpl. eauto.
Qed.

(** X9.  [setErrored err], with or without a registered function: the run
    is [Errored] and finished, holds [err], and the world has seen the call
    of the function, if there is one, and then the completion record. *)
Theorem setErrored_effects (err : option error) (r : Run) (w : World) :
  let r' := (setErrored err r w).1 in
  let w' := (setErrored err r w).2 in
  Status r' = Errored
  /\ Error r' = err
  /\ IsFinished r' = true
  /\ Updated r' = clock w (ticks w)
  /\ events w' =
       LogInfo "completed run" Errored (LogValue r')
       :: match afterUpdate r with
          | Some cb => AfterUpdate cb r' :: events w
          | None => events w
          end.
Proof.
  unfold setErrored, updateStatus. simpl.
  destruct (afterUpdate r); repeat split.
Qed.

(** X10.  Runs made one after the other never share a directory: when the
    supply of identifiers has only moved on between two successful calls
    of [newRun], the two runs have different [PugDirectory()] values
    (identifiers printing injectively, each as one plain path element). *)
Theorem newRun_fresh_directory mod1 ws1 opts1 w1 r1 w1'
    mod2 ws2 opts2 w2 r2 w2' d1 d2 :
  (forall i, filepath.plain_elem (resource.ID_String i)) ->
  (forall i j, resource.ID_String i = resource.ID_String j -> i = j) ->
  newRun mod1 ws1 opts1 w1 = (Ok r1, w1') ->
  (next_id w1' <= next_id w2)%nat ->
  newRun mod2 ws2 opts2 w2 = (Ok r2, w2') ->
  PugDirectory r1 = Some d1 ->
  PugDirectory r2 = Some d2 ->
  d1 <> d2.
Proof.
  intros Hplain Hinj Hn1 Hle Hn2 Hd1 Hd2 Heq.
  assert (ID r1 = next_id w1 /\ next_id w1' = S (next_id w1)) as [Hid1 Hnext].
  { destruct (run_facts.newRun_Ok_inv _ _ _ _ _ _ Hn1) as [_ [m1 Hp1]].
    rewrite (newRun_with_module mod1 ws1 opts1 w1 m1 Hp1) in Hn1.
    cbn zeta in Hn1.
    destruct (mkdir_all _ _ _).1; inversion Hn1; subst; split; reflexivity. }
  assert (ID r2 = next_id w2) as Hid2.
  { destruct (run_facts.newRun_Ok_inv _ _ _ _ _ _ Hn2) as [_ [m2 Hp2]].
    rewrite (newRun_with_module mod2 ws2 opts2 w2 m2 Hp2) in Hn2.
    cbn zeta in Hn2.
    destruct (mkdir_all _ _ _).1; inversion Hn2; subst; reflexivity. }
  assert (ID r1 = ID r2) as Hsame.
  { apply Hinj.
    unfold PugDirectory, Workspace in Hd1, Hd2.
    destruct (resource.Parent (Resource r1)) as [p1|]; [|discriminate].
    destruct (resource.Parent (Resource r2)) as [p2|]; [|discriminate].
    cbn [fmap option_fmap option_map] in Hd1, Hd2.
    inversion Hd1 as [E1]. inversion Hd2 as [E2].
    assert (filepath.last_elem d1 = resource.ID_String (ID r1)) as L1
      by (rewrite <- E1; apply filepath_facts.last_elem_Join, Hplain).
    assert (filepath.last_elem d2 = resource.ID_String (ID r2)) as L2
      by (rewrite <- E2; apply filepath_facts.last_elem_Join, Hplain).
    rewrite <- L1, <- L2, Heq. reflexivity. }
  rewrite Hid1, Hid2 in Hsame. lia.
Qed.

End Facts.

End run_creation_facts.

(** ** Inserting the elements of a list into a map, one after the other *)

Module fold_insert.

Section Facts.
Context {K A V : Type} `{Countable K} (kf : A -> K) (vf : A -> V).

Local Abbreviation ins := (fun (sel : gmap K V) (x : A) => <[kf x := vf x]> sel).

Lemma lookup_other (l : list A) : forall (sel : gmap K V) (k : K),
  Forall (fun x => kf x <> k) l ->
  fold_left ins l sel !! k = sel !! k.
Proof.
  induction l as [|x l IH]; intros sel k Hall; simpl; [reflexivity|].
  inversion Hall as [|? ? Hx Hl]; subst.
  rewrite IH by exact Hl. apply lookup_insert_ne, Hx.
Qed.

Lemma lookup_inv (l : list A) : forall (sel : gmap K V) (k : K) (v : V),
  fold_left ins l sel !! k = Some v ->
  sel !! k = Some v \/ exists x, x ∈ l /\ kf x = k /\ vf x = v.
Proof.
  induction l as [|x l IH]; intros sel k v Hk; simpl in Hk; [left; exact Hk|].
  apply IH in Hk as [Hk|(y & Hy & Hky & Hvy)].
  - destruct (decide (kf x = k)) as [<-|Hne].
    + rewrite lookup_insert_eq in Hk. inversion Hk; subst.
      right. exists x. split; [apply list_elem_of_here|split; reflexivity].
    + rewrite lookup_insert_ne in Hk by exact Hne. left. exact Hk.
  - right. exists y. split; [apply list_elem_of_further, Hy|split; assumption].
Qed.

Lemma lookup_keep (l : list A) : forall (sel : gmap K V) (k : K),
  is_Some (sel !! k) -> is_Some (fold_left ins l sel !! k).
Proof.
  induction l as [|x l IH]; intros sel k Hk; simpl; [exact Hk|].
  apply IH. destruct (decide (kf x = k)) as [<-|Hne].
  - rewrite lookup_insert_eq. eauto.
  - rewrite lookup_insert_ne by exact Hne. exact Hk.
Qed.

Lemma lookup_elem (l : list A) : forall (sel : gmap K V) (x : A),
  x ∈ l ->
  exists y, y ∈ l /\ kf y = kf x /\ fold_left ins l sel !! kf x = Some (vf y).
Proof.
  induction l as [|a l IH]; intros sel x Hx; [inversion Hx|].
  simpl. destruct (decide (Exists (fun y => kf y = kf x) l)) as [Hex|Hno].
  - apply Exists_exists in Hex as (y & Hy & Hky).
    destruct (IH (<[kf a := vf a]> sel) y Hy) as (z & Hz & Hkz & Hlook).
    exists z. split; [apply list_elem_of_further, Hz|].
    split; [congruence|]. rewrite <- Hky. exact Hlook.
  - assert (a = x) as ->.
    { apply elem_of_cons in Hx as [Heq|Hx]; [symmetry; exact Heq|].
      exfalso. apply Hno, Exists_exists. eauto. }
    exists x. split; [apply list_elem_of_here|]. split; [reflexivity|].
    rewrite lookup_other; [apply lookup_insert_eq|].
    apply Forall_forall. intros y Hy Hky. apply Hno, Exists_exists. eauto.
Qed.

End Facts.

End fold_insert.

(** ** The table of entities: cursor, viewport and selecting all rows *)

Module table_cursor_facts.
Import table.

Section Facts.
Context {T : Type} `{Item T}.


Lemma len_pos (rs : list (Row T)) : rs <> [] -> 0 < len rs.
Proof. destruct rs; [congruence|]. unfold len. simpl. lia. Qed.

Lemma clamp_rows (v : Z) (rs : list (Row T)) :
  rs <> [] -> 0 <= clamp v 0 (len rs - 1) < len rs.
Proof. intros Hne. apply len_pos in Hne. unfold clamp. lia. Qed.

Lemma clamp_no_rows (v : Z) : clamp v 0 (len (@nil (Row T)) - 1) = -1.
Proof. unfold clamp, len. simpl. lia. Qed.

Lemma Highlighted_at (m : Model T) :
  0 <= cursor m < len (rows m) ->
  exists row, rows m !! Z.to_nat (cursor m) = Some row
              /\ Highlighted m = (Entity row, true).
Proof.
  intros Hc. unfold Highlighted.
  destruct (Z.ltb_spec (cursor m) 0); [lia|].
  destruct (Z.geb_spec (cursor m) (len (rows m))); [lia|]. simpl.
  destruct (rows m !! Z.to_nat (cursor m)) as [row|] eqn:Hrow; [eauto|].
  apply lookup_ge_None in Hrow. unfold len in Hc. lia.
Qed.

(** X11.  [UpdateViewport] renders rows that exist only: the range from
    [start] up to [end_] it leaves lies within the rows, whatever the
    cursor and the height of the viewport are. *)
Theorem UpdateViewport_within_rows (m : Model T) :
  0 <= start (UpdateViewport m) /\ end_ (UpdateViewport m) <= len (rows m).
Proof.
  unfold UpdateViewport, clamp. cbn [start end_].
  generalize (int_wrap (cursor m - viewport_Height m))
             (int_wrap (cursor m + viewport_Height m)).
  intros above below. split.
  - destruct (Z.geb_spec (cursor m) 0); lia.
  - lia.
Qed.

(** X12.  On a table with rows, [SetCursor], [MoveUp] and [MoveDown] leave
    the cursor on a row, by whatever amount they are asked to move, and
    [Highlighted] then returns the entity of that row. *)
Theorem move_highlights_row (m : Model T) (n : Z) :
  rows m <> [] ->
  forall m', m' = SetCursor n m \/ m' = MoveUp n m \/ m' = MoveDown n m ->
  rows m' = rows m
  /\ 0 <= cursor m' < len (rows m)
  /\ exists row, rows m !! Z.to_nat (cursor m') = Some row
                 /\ Highlighted m' = (Entity row, true).
Proof.
  intros Hne m' Hm'.
  assert (rows m' = rows m /\ 0 <= cursor m' < len (rows m)) as [Hrows Hc].
  { destruct Hm' as [->|[->| ->]]; simpl; (split; [reflexivity|]);
      apply clamp_rows, Hne. }
  split; [exact Hrows|]. split; [exact Hc|].
  rewrite <- Hrows in *. apply Highlighted_at, Hc.
Qed.

(** X13.  On a table without rows the same moves leave the cursor at
    [-1]: nothing is highlighted, and [ToggleSelection] does nothing. *)
Theorem move_on_empty_table (m : Model T) (n : Z) :
  rows m = [] ->
  forall m', m' = SetCursor n m \/ m' = MoveUp n m \/ m' = MoveDown n m ->
  cursor m' = -1
  /\ Highlighted m' = (zero, false)
  /\ ToggleSelection m' = m'.
Proof.
  intros Hnil m' Hm'.
  assert (cursor m' = -1) as Hc.
  { destruct Hm' as [->|[->| ->]]; simpl; rewrite Hnil; apply clamp_no_rows. }
  assert (Highlighted m' = (zero, false)) as Hh.
  { unfold Highlighted. rewrite Hc. reflexivity. }
  repeat split; [exact Hc|exact Hh|].
  unfold ToggleSelection. rewrite Hh. destruct (selectable m'); reflexivity.
Qed.


(** X15.  [ToggleSelectAll] on a selectable table on which not all is
    selected: afterwards every row's identifier is selected, with the
    entity of a row of that identifier, nothing else is selected, and a
    second [ToggleSelectAll] leaves nothing selected. *)
Theorem ToggleSelectAll_selects_rows (m : Model T) :
  selectable m = true ->
  selectAll m = false ->
  (forall r, r ∈ rows m ->
     exists r', r' ∈ rows m /\ ID (Entity r') = ID (Entity r)
                /\ Selected (ToggleSelectAll m) !! ID (Entity r) = Some (Entity r'))
  /\ (forall k e, Selected (ToggleSelectAll m) !! k = Some e ->
        exists r, r ∈ rows m /\ ID (Entity r) = k /\ Entity r = e)
  /\ selectAll (ToggleSelectAll m) = true
  /\ Selected (ToggleSelectAll (ToggleSelectAll m)) = ∅.
Proof.
  intros Hsel Hall. unfold ToggleSelectAll at 1 2 3. rewrite Hsel, Hall. simpl.
  repeat split.
  - intros r Hr.
    apply (fold_insert.lookup_elem (fun r => ID (Entity r)) Entity (rows m) ∅ r Hr).
  - intros k e Hk.
    apply (fold_insert.lookup_inv (fun r => ID (Entity r)) Entity) in Hk
      as [Hk|Hk]; [rewrite lookup_empty in Hk; discriminate|exact Hk].
  - unfold ToggleSelectAll. rewrite Hsel, Hall. simpl.
    unfold DeselectAll. simpl. rewrite Hsel. reflexivity.
Qed.

End Facts.

End table_cursor_facts.

(** ** The table of keyed rows: items, filter and selection *)

Module table_kv_items_facts.
Import table_kv.

Section Facts.
Context {K V : Type} `{Countable K}.
Variable StripAnsi : string -> string.

Lemma kept_visible (m : Model K V) (v : V) :
  negb (negb (String.eqb (filter_Value m) "") && negb (filterMatch StripAnsi m v))
  = true <-> visible StripAnsi m v.
Proof.
  unfold visible.
  destruct (String.eqb_spec (filter_Value m) "") as [->|Hne]; simpl.
  - split; auto.
  - destruct (filterMatch StripAnsi m v); simpl; split; auto.
    intros [?|?]; [contradiction|discriminate].
Qed.

Lemma insert_row_perm (cmp : V -> V -> Z) (x : Row K V) (rs : list (Row K V)) :
  insert_row cmp x rs ≡ₚ x :: rs.
Proof.
  induction rs as [|y rs IH]; simpl; [reflexivity|].
  destruct (cmp (Value x) (Value y) <? 0); [reflexivity|].
  rewrite IH. apply Permutation_swap.
Qed.

Lemma sort_rows_perm (cmp : V -> V -> Z) (rs : list (Row K V)) :
  sort_rows cmp rs ≡ₚ rs.
Proof.
  induction rs as [|x rs IH]; simpl; [reflexivity|].
  rewrite insert_row_perm, IH. reflexivity.
Qed.

Lemma NoDup_fst_filter (P : K * V -> Prop) `{forall kv, Decision (P kv)}
    (l : list (K * V)) :
  NoDup (l.*1) -> NoDup ((filter P l).*1).
Proof.
  induction l as [|kv l IH]; intros Hnd; [constructor|].
  rewrite fmap_cons in Hnd. apply NoDup_cons in Hnd as [Hnotin Hnd].
  rewrite filter_cons. destruct (decide (P kv)); [|apply IH, Hnd].
  rewrite fmap_cons. apply NoDup_cons. split; [|apply IH, Hnd].
  intros Hin. apply Hnotin.
  apply list_elem_of_fmap in Hin as (kv' & Hk & Hin').
  apply list_elem_of_filter in Hin' as [_ Hin'].
  apply list_elem_of_fmap. eauto.
Qed.

(** The rows [SetItems] leaves, before the cursor and the viewport are
    looked at. *)
Lemma rows_SetItems (its : gmap K V) (m : Model K V) :
  rows (SetItems StripAnsi its m)
  ≡ₚ row_of <$> filter (fun kv => visible StripAnsi m kv.2) (map_to_list its).
Proof.
  unfold SetItems. simpl.
  match goal with
  | |- context [filter ?P (map_to_list its)] =>
      assert (filter P (map_to_list its)
              = filter (fun kv => visible StripAnsi m kv.2) (map_to_list its)) as ->
  end.
  { apply list_filter_iff. intros kv. apply kept_visible. }
  destruct (sortFunc m) as [cmp|]; [apply sort_rows_perm|reflexivity].
Qed.

Lemma elem_of_rows_SetItems (its : gmap K V) (m : Model K V) (row : Row K V) :
  row ∈ rows (SetItems StripAnsi its m) <->
  its !! Key row = Some (Value row) /\ visible StripAnsi m (Value row).
Proof.
  rewrite rows_SetItems. rewrite list_elem_of_fmap. split.
  - intros ([k v] & -> & Hin). apply list_elem_of_filter in Hin as [Hvis Hin].
    apply elem_of_map_to_list in Hin. simpl in *. auto.
  - intros [Hit Hvis]. exists (Key row, Value row). split.
    + destruct row; reflexivity.
    + apply list_elem_of_filter. split; [exact Hvis|].
      apply elem_of_map_to_list. exact Hit.
Qed.

(** X16.  After [SetItems] the rows are the visible items, each once: a
    row is in the table exactly when its key holds its value in the items
    and the item passes the filter (no filter set, or a rendered cell that
    contains the filter's value); no key occurs in two rows. *)
Theorem SetItems_rows (its : gmap K V) (m : Model K V) :
  items (SetItems StripAnsi its m) = its
  /\ NoDup (Key <$> rows (SetItems StripAnsi its m))
  /\ forall row, row ∈ rows (SetItems StripAnsi its m) <->
                 its !! Key row = Some (Value row)
                 /\ visible StripAnsi m (Value row).
Proof.
  split; [reflexivity|]. split.
  - rewrite rows_SetItems. rewrite <- list_fmap_compose.
    change (Key ∘ row_of) with (@fst K V).
    apply NoDup_fst_filter, NoDup_fst_map_to_list.
  - apply elem_of_rows_SetItems.
Qed.

Lemma Selected_SetItems_row (its : gmap K V) (m : Model K V) (k : K) (v : V) :
  Selected (SetItems StripAnsi its m) !! k = Some v ->
  {| Key := k; Value := v |} ∈ rows (SetItems StripAnsi its m).
Proof.
  intros Hk. rewrite rows_SetItems. revert Hk. unfold SetItems. simpl.
  destruct (selectable m); [|rewrite lookup_empty; discriminate].
  match goal with
  | |- context [filter ?P (map_to_list its)] =>
      assert (filter P (map_to_list its)
              = filter (fun kv => visible StripAnsi m kv.2) (map_to_list its)) as ->
  end.
  { apply list_filter_iff. intros kv. apply kept_visible. }
  intros Hk. apply elem_of_list_to_map_2 in Hk.
  apply list_elem_of_filter in Hk as [_ Hk].
  apply (list_elem_of_fmap_2 row_of) in Hk. exact Hk.
Qed.

(** X17.  [SetItems] carries a selection over exactly when the table is
    selectable, the key was selected, and the key is still a visible item;
    what is then stored is the new value of the item.  So every selected
    key is the key of a row. *)
Theorem SetItems_Selected (its : gmap K V) (m : Model K V) (k : K) (v : V) :
  Selected (SetItems StripAnsi its m) !! k = Some v <->
  selectable m = true /\ is_Some (Selected m !! k)
  /\ {| Key := k; Value := v |} ∈ rows (SetItems StripAnsi its m).
Proof.
  rewrite elem_of_rows_SetItems. simpl.
  unfold SetItems. simpl.
  destruct (selectable m).
  - match goal with
    | |- context [filter ?P (map_to_list its)] =>
        assert (filter P (map_to_list its)
                = filter (fun kv => visible StripAnsi m kv.2) (map_to_list its)) as ->
    end.
    { apply list_filter_iff. intros kv. apply kept_visible. }
    rewrite <- elem_of_list_to_map.
    + rewrite list_elem_of_filter, list_elem_of_filter, elem_of_map_to_list.
      simpl. tauto.
    + apply NoDup_fst_filter, NoDup_fst_filter, NoDup_fst_map_to_list.
  - rewrite lookup_empty. split; [discriminate|]. intros [? _]. discriminate.
Qed.

(** X18.  [SetItems] brings a cursor that was not negative back onto the
    rows (onto the last row when it was beyond it, to [0] when no row is
    left), and leaves a negative cursor as it is. *)
Theorem SetItems_cursor (its : gmap K V) (m : Model K V) :
  let m' := SetItems StripAnsi its m in
  (0 <= cursor m ->
   0 <= cursor m' <= cursor m /\ (rows m' <> [] -> cursor m' < len (rows m')))
  /\ (cursor m < 0 -> cursor m' = cursor m).
Proof.
  simpl. unfold SetItems. simpl.
  match goal with |- context [len ?rs - 1] => set (rs' := rs) end.
  assert (0 <= len rs') as Hlen by (unfold len; lia).
  split.
  - intros Hc. destruct (Z.gtb_spec (cursor m) (len rs' - 1)).
    + split; [lia|]. intros Hne.
      assert (0 < len rs') by (destruct rs'; [congruence|unfold len; simpl; lia]).
      lia.
    + split; [lia|]. intros _. lia.
  - intros Hc. destruct (Z.gtb_spec (cursor m) (len rs' - 1)); [lia|reflexivity].
Qed.

End Facts.

End table_kv_items_facts.

(** ** The table of keyed rows: selecting a range *)

Module table_kv_range_facts.
Import table_kv.

Section Facts.
Context {K V : Type} `{Countable K}.

Lemma scan_first_nonneg (m : Model K V) (rs : list (Row K V)) : forall i first,
  0 <= i -> 0 <= cursor m ->
  0 <= first \/ Exists (is_selected m) rs ->
  0 <= (scan m rs i first).1.
Proof.
  induction rs as [|row rest IH]; intros i first Hi Hc Hor; simpl.
  - destruct Hor as [?|Hex]; [assumption|inversion Hex].
  - destruct ((i =? cursor m) && (first >? -1) && (first <? cursor m)) eqn:Hbrk.
    + apply andb_true_iff in Hbrk as [Hbrk _].
      apply andb_true_iff in Hbrk as [_ Hgt].
      apply Z.gtb_lt in Hgt. simpl. lia.
    + destruct (Selected m !! Key row) eqn:Hrow.
      * destruct (i >? cursor m); [simpl; lia|].
        apply IH; [lia|assumption|left; lia].
      * apply IH; [lia|assumption|].
        destruct Hor as [?|Hex]; [left; assumption|right].
        inversion Hex as [? ? Hsel|]; subst; [|assumption].
        unfold is_selected in Hsel. rewrite Hrow in Hsel.
        destruct Hsel; discriminate.
Qed.

(** Rows that all lie above the cursor do not end the loop. *)
Lemma scan_above_cursor (m : Model K V) (pre rest : list (Row K V)) :
  forall i first,
  i + len pre <= cursor m ->
  exists first', scan m (pre ++ rest) i first = scan m rest (i + len pre) first'.
Proof.
  unfold len. induction pre as [|row pre IH]; intros i first Hle.
  - simpl. rewrite Z.add_0_r. eauto.
  - rewrite length_cons, Nat2Z.inj_succ in Hle.
    change ((row :: pre) ++ rest)%list with (row :: (pre ++ rest))%list.
    cbn [scan].
    replace (i =? cursor m) with false by (symmetry; apply Z.eqb_neq; lia).
    cbn [andb]. replace (i >? cursor m) with false
      by (symmetry; rewrite Z.gtb_ltb; apply Z.ltb_ge; lia).
    destruct (Selected m !! Key row).
    + destruct (IH (i + 1) (i + 1) ltac:(lia)) as [f Hf].
      exists f. rewrite Hf. f_equal. rewrite length_cons. lia.
    + destruct (IH (i + 1) first ltac:(lia)) as [f Hf].
      exists f. rewrite Hf. f_equal. rewrite length_cons. lia.
Qed.

(** Unselected rows, as long as the loop is not yet at the cursor with a
    first row in hand, are passed over. *)
Lemma scan_unselected (m : Model K V) (mid rest : list (Row K V)) :
  forall i first,
  Forall (fun row => Selected m !! Key row = None) mid ->
  i + len mid <= cursor m \/ first <= -1 \/ cursor m <= first ->
  scan m (mid ++ rest) i first = scan m rest (i + len mid) first.
Proof.
  unfold len. induction mid as [|row mid IH]; intros i first Hall Hcase.
  - simpl. rewrite Z.add_0_r. reflexivity.
  - inversion Hall as [|? ? Hrow Hmid]; subst.
    rewrite length_cons, Nat2Z.inj_succ in Hcase.
    change ((row :: mid) ++ rest)%list with (row :: (mid ++ rest))%list.
    cbn [scan]. rewrite Hrow.
    replace ((i =? cursor m) && (first >? -1) && (first <? cursor m)) with false.
    + rewrite IH; [f_equal; rewrite length_cons; lia|exact Hmid|lia].
    + symmetry. destruct Hcase as [Hlt|[Hneg|Hge]].
      * replace (i =? cursor m) with false by (symmetry; apply Z.eqb_neq; lia).
        reflexivity.
      * replace (first >? -1) with false
          by (symmetry; rewrite Z.gtb_ltb; apply Z.ltb_ge; lia).
        rewrite andb_false_r. reflexivity.
      * replace (first <? cursor m) with false by (symmetry; apply Z.ltb_ge; lia).
        apply andb_false_r.
Qed.

Lemma slice_middle (pre mid post : list (Row K V)) :
  slice (pre ++ mid ++ post) (len pre) (len pre + len mid) = Some mid.
Proof.
  unfold slice, len.
  destruct (Z.ltb_spec (Z.of_nat (length pre)) 0); [lia|].
  destruct (Z.ltb_spec (Z.of_nat (length pre) + Z.of_nat (length mid))
              (Z.of_nat (length pre))); [lia|].
  destruct (Z.gtb_spec (Z.of_nat (length pre) + Z.of_nat (length mid))
              (Z.of_nat (length (pre ++ mid ++ post)))) as [Hgt|_].
  { rewrite !length_app in Hgt. lia. }
  simpl. f_equal.
  rewrite Nat2Z.id, drop_app_length.
  replace (Z.to_nat (Z.of_nat (length pre) + Z.of_nat (length mid) - Z.of_nat (length pre)))
    with (length mid) by lia.
  apply take_app_length.
Qed.

(** What [SelectRange] does once the loop has settled on a range that
    is the middle of the rows. *)
Lemma SelectRange_range (m : Model K V) (pre mid post : list (Row K V)) :
  selectable m = true ->
  size (Selected m) <> 0%nat ->
  rows m = (pre ++ mid ++ post)%list ->
  scan m (rows m) 0 (-1) = (len pre, len mid) ->
  SelectRange m = Returned (select_rows mid m).
Proof.
  intros Hsel Hne Hrows Hscan. unfold SelectRange.
  rewrite Hsel. simpl.
  destruct (Nat.eqb_spec (size (Selected m)) 0); [contradiction|].
  rewrite Hscan, Hrows, slice_middle. reflexivity.
Qed.

(** X19.  [SelectRange] returns, without a panic, whenever the cursor is
    not negative and a selected key is the key of some row. *)
Theorem SelectRange_returns (m : Model K V) :
  0 <= cursor m ->
  Exists (is_selected m) (rows m) ->
  exists m', SelectRange m = Returned m'.
Proof.
  intros Hc Hex.
  destruct (SelectRange m) as [m'|] eqn:Hres; [eauto|].
  apply table_kv_facts.SelectRange_Panicked_iff in Hres as (_ & _ & Hneg).
  pose proof (scan_first_nonneg m (rows m) 0 (-1) ltac:(lia) Hc (or_intror Hex)).
  lia.
Qed.

(** X20.  [SelectRange] only adds to the selection: when it returns, the
    rows and the cursor are as before, every key that was selected still
    is, and whatever else is selected is the key of a row, with the value
    of that row. *)
Theorem SelectRange_only_adds (m m' : Model K V) :
  SelectRange m = Returned m' ->
  rows m' = rows m /\ cursor m' = cursor m
  /\ (forall k, is_Some (Selected m !! k) -> is_Some (Selected m' !! k))
  /\ (forall k v, Selected m' !! k = Some v ->
        Selected m !! k = Some v
        \/ exists row, row ∈ rows m /\ Key row = k /\ Value row = v).
Proof.
  unfold SelectRange. destruct (selectable m); simpl.
  2:{ intros Heq. inversion Heq; subst. repeat split; auto. }
  destruct (size (Selected m) =? 0)%nat.
  { intros Heq. inversion Heq; subst. repeat split; auto. }
  destruct (scan m (rows m) 0 (-1)) as [first n].
  destruct (slice (rows m) first (first + n)) as [range|] eqn:Hslice;
    [|discriminate].
  intros Heq. inversion Heq; subst. simpl. clear Heq.
  assert (forall row, row ∈ range -> row ∈ rows m) as Hsub.
  { unfold slice in Hslice.
    destruct ((first <? 0) || (first + n <? first) || (first + n >? len (rows m)));
      [discriminate|].
    inversion Hslice; subst. intros row Hrow.
    eapply elem_of_sublist; [|apply sublist_drop].
    eapply elem_of_sublist; [exact Hrow|apply sublist_take]. }
  repeat split.
  - intros k Hk. apply (fold_insert.lookup_keep Key Value). exact Hk.
  - intros k v Hk.
    apply (fold_insert.lookup_inv Key Value) in Hk as [Hk|(row & Hrow & Hkr & Hvr)];
      [left; exact Hk|right; eauto].
Qed.

(** X21.  The cursor below a selected row, with unselected rows between
    them: [SelectRange] selects the rows between them and the row of the
    cursor, and nothing else. *)
Theorem SelectRange_below (m : Model K V) (pre mid post : list (Row K V))
    (ra rc : Row K V) :
  selectable m = true ->
  rows m = (pre ++ [ra] ++ (mid ++ [rc]) ++ post)%list ->
  cursor m = len pre + 1 + len mid ->
  mid <> [] ->
  is_selected m ra ->
  Forall (fun row => Selected m !! Key row = None) mid ->
  SelectRange m = Returned (select_rows (mid ++ [rc]) m).
Proof.
  intros Hsel Hrows Hc Hmid Hra Hun.
  assert (0 < len mid) as Hpos.
  { destruct mid; [congruence|]. unfold len. simpl. lia. }
  assert (0 <= len pre) as Hpre by (unfold len; lia).
  assert (rows m = (pre ++ ra :: mid ++ rc :: post)%list) as Hrows'.
  { rewrite Hrows. simpl. rewrite <- app_assoc. reflexivity. }
  apply (SelectRange_range m (pre ++ [ra]) (mid ++ [rc]) post).
  - exact Hsel.
  - eapply map_size_ne_0_lookup_2, Hra.
  - rewrite Hrows. apply app_assoc.
  - rewrite Hrows'.
    destruct (scan_above_cursor m pre (ra :: mid ++ rc :: post) 0 (-1)
                ltac:(lia)) as [f ->].
    destruct Hra as [va Hva]. cbn [scan]. rewrite Hva.
    replace (0 + len pre =? cursor m) with false
      by (symmetry; apply Z.eqb_neq; lia).
    cbn [andb]. replace (0 + len pre >? cursor m) with false
      by (symmetry; rewrite Z.gtb_ltb; apply Z.ltb_ge; lia).
    rewrite scan_unselected by (try exact Hun; lia).
    cbn [scan].
    replace (0 + len pre + 1 + len mid =? cursor m) with true
      by (symmetry; apply Z.eqb_eq; lia).
    replace (0 + len pre + 1 >? -1) with true
      by (symmetry; rewrite Z.gtb_ltb; apply Z.ltb_lt; lia).
    replace (0 + len pre + 1 <? cursor m) with true
      by (symmetry; apply Z.ltb_lt; lia).
    cbn [andb]. unfold len in *. rewrite !length_app. cbn [length].
    f_equal; lia.
Qed.

(** X22.  The cursor above the first selected row, with no selected row
    at or above the cursor: [SelectRange] selects the row of the cursor and
    the rows down to, but not including, that selected row. *)
Theorem SelectRange_above (m : Model K V) (pre mid post : list (Row K V))
    (rc rb : Row K V) :
  selectable m = true ->
  rows m = (pre ++ (rc :: mid) ++ rb :: post)%list ->
  cursor m = len pre ->
  is_selected m rb ->
  Forall (fun row => Selected m !! Key row = None) (pre ++ rc :: mid) ->
  SelectRange m = Returned (select_rows (rc :: mid) m).
Proof.
  intros Hsel Hrows Hc Hrb Hun.
  assert (0 <= len pre) as Hpre by (unfold len; lia).
  assert (len (pre ++ rc :: mid) = len pre + 1 + len mid) as Hlen.
  { unfold len. rewrite length_app, length_cons. lia. }
  assert (0 <= len mid) as Hmid by (unfold len; lia).
  apply (SelectRange_range m pre (rc :: mid) (rb :: post)).
  - exact Hsel.
  - eapply map_size_ne_0_lookup_2, Hrb.
  - exact Hrows.
  - rewrite Hrows, app_assoc.
    rewrite scan_unselected by (try exact Hun; lia).
    destruct Hrb as [vb Hvb]. cbn [scan]. rewrite Hvb.
    replace ((0 + len (pre ++ rc :: mid) =? cursor m) && (-1 >? -1)
             && (-1 <? cursor m)) with false
      by (rewrite andb_false_r; reflexivity).
    replace (0 + len (pre ++ rc :: mid) >? cursor m) with true
      by (symmetry; rewrite Z.gtb_ltb; apply Z.ltb_lt; lia).
    f_equal; [|unfold len in *; rewrite length_cons]; lia.
Qed.

(** X23.  The cursor on the row right below a selected row, with no
    selected row at or below the cursor: [SelectRange] selects nothing;
    the row of the cursor stays unselected. *)
Theorem SelectRange_adjacent (m : Model K V) (pre post : list (Row K V))
    (ra rc : Row K V) :
  selectable m = true ->
  rows m = (pre ++ [ra] ++ rc :: post)%list ->
  cursor m = len pre + 1 ->
  is_selected m ra ->
  Forall (fun row => Selected m !! Key row = None) (rc :: post) ->
  exists m', SelectRange m = Returned m'
             /\ Selected m' = Selected m
             /\ Selected m' !! Key rc = None.
Proof.
  intros Hsel Hrows Hc Hra Hun.
  assert (0 <= len pre) as Hpre by (unfold len; lia).
  assert (rows m = ((pre ++ [ra]) ++ [] ++ rc :: post)%list) as Hrows'.
  { rewrite Hrows. apply app_assoc. }
  exists (select_rows [] m). split; [|split].
  - apply (SelectRange_range m (pre ++ [ra]) [] (rc :: post)).
    + exact Hsel.
    + eapply map_size_ne_0_lookup_2, Hra.
    + exact Hrows'.
    + assert (len (pre ++ [ra]) = len pre + 1) as ->.
      { unfold len. rewrite length_app. simpl. lia. }
      rewrite Hrows. change ([ra] ++ rc :: post)%list with (ra :: rc :: post).
      remember (rc :: post) as tail eqn:Htail.
      destruct (scan_above_cursor m pre (ra :: tail) 0 (-1)
                  ltac:(lia)) as [f ->].
      destruct Hra as [va Hva]. cbn [scan]. rewrite Hva.
      replace (0 + len pre =? cursor m) with false
        by (symmetry; apply Z.eqb_neq; lia).
      cbn [andb]. replace (0 + len pre >? cursor m) with false
        by (symmetry; rewrite Z.gtb_ltb; apply Z.ltb_ge; lia).
      rewrite <- (app_nil_r tail).
      rewrite scan_unselected by (try exact Hun; lia).
      cbn [scan]. reflexivity.
  - reflexivity.
  - simpl. inversion Hun; assumption.
Qed.

End Facts.

End table_kv_range_facts.

(** ** The table of keyed rows: toggling, and how the operations compose *)

Module table_kv_compose_facts.
Import table_kv.

Section Facts.
Context {K V : Type} `{Countable K}.
Variable StripAnsi : string -> string.

(** X24.  [ToggleSelection] on a selectable table whose current row is
    not selected stores the value of that row under its key, and a second
    [ToggleSelection] gives the selection back. *)
Theorem ToggleSelection_current_row (m : Model K V) (row : Row K V) :
  selectable m = true ->
  currentRow m = Some row ->
  Selected m !! Key row = None ->
  Selected (ToggleSelection m) = <[Key row := Value row]> (Selected m)
  /\ Selected (ToggleSelection (ToggleSelection m)) = Selected m.
Proof.
  intros Hsel Hcur Hnone.
  assert (ToggleSelection m
          = UpdateViewport
              (set_Selected (<[Key row := Value row]> (Selected m)) (selectAll m) m))
    as Hfirst.
  { unfold ToggleSelection. rewrite Hsel, Hcur. simpl. rewrite Hnone. reflexivity. }
  split; [rewrite Hfirst; reflexivity|].
  rewrite Hfirst. unfold ToggleSelection at 1. simpl selectable. rewrite Hsel.
  change (currentRow (UpdateViewport (set_Selected
            (<[Key row := Value row]> (Selected m)) (selectAll m) m)))
    with (currentRow m).
  rewrite Hcur. simpl. rewrite lookup_insert_eq. simpl.
  apply delete_insert_id, Hnone.
Qed.

(** X25.  [ToggleSelectionByKey] on a selectable table, for a key that is
    not selected: a key that is no item changes nothing; a key that is an
    item gets selected with the item's value, whether a row shows it or
    not, and a second call gives the selection back. *)
Theorem ToggleSelectionByKey_item (m : Model K V) (key : K) :
  selectable m = true ->
  Selected m !! key = None ->
  match items m !! key with
  | None => ToggleSelectionByKey key m = m
  | Some v =>
      Selected (ToggleSelectionByKey key m) = <[key := v]> (Selected m)
      /\ rows (ToggleSelectionByKey key m) = rows m
      /\ Selected (ToggleSelectionByKey key (ToggleSelectionByKey key m))
         = Selected m
  end.
Proof.
  intros Hsel Hnone.
  destruct (items m !! key) as [v|] eqn:Hit.
  - assert (ToggleSelectionByKey key m
            = UpdateViewport
                (set_Selected (<[key := v]> (Selected m)) (selectAll m) m))
      as Hfirst.
    { unfold ToggleSelectionByKey. rewrite Hsel, Hit. simpl.
      rewrite Hnone. reflexivity. }
    rewrite Hfirst. repeat split.
    unfold ToggleSelectionByKey. simpl. rewrite Hsel, Hit. simpl.
    rewrite lookup_insert_eq. simpl. apply delete_insert_id, Hnone.
  - unfold ToggleSelectionByKey. rewrite Hsel, Hit. reflexivity.
Qed.

(** X26.  [ToggleSelectAll] on a selectable table on which not all is
    selected: afterwards the key of every row is selected, with the value
    of a row of that key, nothing else is selected, and a second
    [ToggleSelectAll] leaves nothing selected. *)
Theorem ToggleSelectAll_selects_keys (m : Model K V) :
  selectable m = true ->
  selectAll m = false ->
  (forall r, r ∈ rows m ->
     exists r', r' ∈ rows m /\ Key r' = Key r
                /\ Selected (ToggleSelectAll m) !! Key r = Some (Value r'))
  /\ (forall k v, Selected (ToggleSelectAll m) !! k = Some v ->
        exists r, r ∈ rows m /\ Key r = k /\ Value r = v)
  /\ Selected (ToggleSelectAll (ToggleSelectAll m)) = ∅.
Proof.
  intros Hsel Hall. unfold ToggleSelectAll at 1 2. rewrite Hsel, Hall. simpl.
  repeat split.
  - intros r Hr. apply (fold_insert.lookup_elem Key Value (rows m) ∅ r Hr).
  - intros k v Hk.
    apply (fold_insert.lookup_inv Key Value) in Hk
      as [Hk|Hk]; [rewrite lookup_empty in Hk; discriminate|exact Hk].
  - unfold ToggleSelectAll. rewrite Hsel, Hall. simpl.
    unfold DeselectAll. simpl. rewrite Hsel. reflexivity.
Qed.

(** X27.  After [SetItems] on a table whose cursor was not negative,
    [SelectRange] returns: every key [SetItems] leaves selected is the key
    of a row. *)
Theorem SelectRange_after_SetItems (its : gmap K V) (m : Model K V) :
  0 <= cursor m ->
  exists m', SelectRange (SetItems StripAnsi its m) = Returned m'.
Proof.
  intros Hc. set (m1 := SetItems StripAnsi its m).
  destruct (SelectRange m1) as [m'|] eqn:Hres; [eauto|]. exfalso.
  apply table_kv_facts.SelectRange_Panicked_iff in Hres as (_ & Hne & Hneg).
  apply map_size_ne_0_lookup_1 in Hne as (k & v & Hk).
  pose proof (table_kv_items_facts.Selected_SetItems_row StripAnsi its m k v Hk)
    as Hrow.
  assert (0 <= cursor m1) as Hc1.
  { unfold m1, SetItems. simpl.
    match goal with |- context [len ?rs - 1] => set (rs' := rs) end.
    destruct (cursor m >? len rs' - 1); lia. }
  pose proof (table_kv_range_facts.scan_first_nonneg m1 (rows m1) 0 (-1)
                ltac:(lia) Hc1) as Hfirst.
  assert (0 <= (scan m1 (rows m1) 0 (-1)).1); [|lia].
  apply Hfirst. right. apply Exists_exists.
  exists {| Key := k; Value := v |}. split.
  - exact Hrow.
  - exists v. exact Hk.
Qed.

(** A table whose cursor is at [-1] although it has rows: once all rows are
    selected, [SelectRange] slices the rows from [-1]. *)
Lemma SelectRange_panics_at_minus_one (m1 : Model K V) :
  cursor m1 = -1 -> rows m1 <> [] -> selectable m1 = true ->
  selectAll m1 = false ->
  SelectRange (ToggleSelectAll m1) = Panicked.
Proof.
  intros Hc1 Hne Hsel1 Hall1.
  apply table_kv_facts.SelectRange_Panicked_iff.
  unfold ToggleSelectAll. rewrite Hsel1, Hall1. cbn [negb].
  set (sel := fold_left (fun (sel : gmap K V) row => <[Key row := Value row]> sel)
                (rows m1) ∅).
  set (m2 := UpdateViewport (set_Selected sel true m1)).
  change (selectable m2) with (selectable m1).
  change (Selected m2) with sel.
  change (rows m2) with (rows m1).
  assert (cursor m2 = -1) as Hc2 by exact Hc1.
  split; [exact Hsel1|].
  destruct (rows m1) as [|r0 rest] eqn:Hrows; [congruence|].
  assert (is_Some (Selected m2 !! Key r0)) as [v0 Hv0].
  { destruct (fold_insert.lookup_elem Key Value (r0 :: rest) ∅ r0
                ltac:(apply list_elem_of_here)) as (y & _ & _ & Hy).
    change (Selected m2) with sel. unfold sel. rewrite Hy. eauto. }
  split.
  - eapply map_size_ne_0_lookup_2. exists v0. exact Hv0.
  - cbn [scan]. rewrite Hc2, Hv0. simpl. lia.
Qed.

Lemma cursor_MoveDown_no_rows (m : Model K V) (n : Z) :
  rows m = [] -> cursor (MoveDown n m) = -1.
Proof.
  intros Hnil. unfold MoveDown, clamp, len. simpl. rewrite Hnil. simpl. lia.
Qed.

Lemma cursor_SetItems_minus_one (m : Model K V) (its : gmap K V) :
  cursor m = -1 -> cursor (SetItems StripAnsi its m) = -1.
Proof.
  intros Hc0. unfold SetItems. cbn [cursor UpdateViewport]. rewrite Hc0.
  match goal with |- context [len ?rs - 1] => set (rs' := rs) end.
  assert (0 <= len rs') by (unfold len; lia).
  destruct (Z.gtb_spec (-1) (len rs' - 1)); [lia|reflexivity].
Qed.

(** X28.  A move on a table without rows leaves the cursor at [-1], and
    [SetItems] does not bring it back: when items arrive, no row is current
    although there are rows, and after [ToggleSelectAll] a [SelectRange]
    slices the rows from [-1] and panics. *)
Theorem SelectRange_panics_after_move_on_empty (m : Model K V) (n : Z)
    (its : gmap K V) :
  rows m = [] ->
  selectable m = true ->
  selectAll m = false ->
  filter_Value m = "" ->
  its <> ∅ ->
  let m1 := SetItems StripAnsi its (MoveDown n m) in
  rows m1 <> []
  /\ cursor m1 = -1
  /\ currentRow m1 = None
  /\ SelectRange (ToggleSelectAll m1) = Panicked.
Proof.
  intros Hnil Hsel Hall Hfilter Hits m1.
  assert (cursor m1 = -1) as Hc1.
  { apply cursor_SetItems_minus_one, cursor_MoveDown_no_rows, Hnil. }
  assert (exists r, r ∈ rows m1) as [r Hr].
  { apply map_choose in Hits as (k & v & Hkv).
    exists {| Key := k; Value := v |}. unfold m1.
    rewrite table_kv_items_facts.rows_SetItems.
    apply (list_elem_of_fmap_2 table_kv.row_of _ (k, v)).
    apply list_elem_of_filter. split.
    - left. exact Hfilter.
    - apply elem_of_map_to_list. exact Hkv. }
  assert (rows m1 <> []) as Hne.
  { intros Hempty. rewrite Hempty in Hr. inversion Hr. }
  split; [exact Hne|]. split; [exact Hc1|]. split.
  { unfold currentRow. rewrite Hc1. reflexivity. }
  apply SelectRange_panics_at_minus_one; [exact Hc1|exact Hne|exact Hsel|exact Hall].
Qed.

End Facts.

End table_kv_compose_facts.

(** ** The logger over many writes *)

Module logging_sequence_facts.
Import logging.

Section Facts.
Context {F : Type} `{io.Writer F} `{logfmt.Decoder} `{TimeParser}.

(** The loop over the records only adds to what is published, and what it
    collects it has published. *)
Lemma scanRecords_published (recs : list logfmt.record) :
  forall st : scanning (F:=F),
  (Logger_serial (scan_logger st) + N.of_nat (length recs) < 2 ^ 64)%N ->
  let post st' :=
    (forall m, m ∈ published (scan_logger st) -> m ∈ published (scan_logger st'))
    /\ (forall m, m ∈ scan_msgs st' ->
          m ∈ scan_msgs st \/ m ∈ published (scan_logger st'))
    /\ (Logger_serial (scan_logger st')
        <= Logger_serial (scan_logger st) + N.of_nat (length recs))%N in
  match scanRecords recs st with
  | inl st' => post st'
  | inr (_, st') => post st'
  end.
Proof.
  induction recs as [|rec rest IH]; intros st Hfit post.
  - simpl. unfold post. repeat split; [auto|auto|lia].
  - simpl scanRecords.
    set (l := scan_logger st) in *.
    match goal with |- context [scanKeyvals ?msg0 rec] =>
      destruct (scanKeyvals msg0 rec) as [msg|err]
    end.
    + assert (uint_succ (Logger_serial l) = (Logger_serial l + 1)%N) as Hsucc.
      { apply logging_facts.uint_succ_small. simpl length in Hfit. lia. }
      match goal with |- context [scanRecords rest ?x] => set (st1 := x) end.
      specialize (IH st1). simpl in IH. rewrite Hsucc in IH.
      specialize (IH ltac:(simpl length in Hfit; lia)).
      assert (forall st', (let post1 st' :=
                (forall m, m ∈ msg :: published l -> m ∈ published (scan_logger st'))
                /\ (forall m, m ∈ scan_msgs st' ->
                      m ∈ (scan_msgs st ++ [msg])%list
                      \/ m ∈ published (scan_logger st'))
                /\ (Logger_serial (scan_logger st')
                    <= Logger_serial l + 1 + N.of_nat (length rest))%N in
                post1 st') -> post st') as Hstep.
      { intros st' (Hpub & Hmsgs & Hser). unfold post. fold l. repeat split.
        - intros m Hm. apply Hpub. apply list_elem_of_further, Hm.
        - intros m Hm. apply Hmsgs in Hm as [Hm|Hm]; [|right; exact Hm].
          apply elem_of_app in Hm as [Hm|Hm]; [left; exact Hm|right].
          apply list_elem_of_singleton in Hm as ->.
          apply Hpub, list_elem_of_here.
        - simpl length. lia. }
      destruct (scanRecords rest st1) as [st'|[err st']]; apply Hstep, IH.
    + unfold post. simpl. fold l. repeat split; [auto|auto|lia].
Qed.

(** One [Write] keeps what holds between writes, as long as the serial
    does not wrap during it, and uses up at most one serial per record. *)
Lemma Write_log_inv (p : list Byte.byte) (l : Logger F) (ids : resource.ID) :
  (Logger_serial l + N.of_nat (length (logfmt.Decode p).1) < 2 ^ 64)%N ->
  log_inv l ->
  log_inv (logging.Write p l ids).1.2
  /\ (Logger_serial (logging.Write p l ids).1.2
      <= Logger_serial l + N.of_nat (length (logfmt.Decode p).1))%N.
Proof.
  intros Hfit (Hbelow & Hsorted & Hpub). unfold logging.Write.
  destruct (logfmt.Decode p) as [recs derr]. simpl in Hfit |- *.
  set (st0 := {| scan_logger := l; scan_ids := ids; scan_msgs := [] |}).
  pose proof (logging_facts.scanRecords_inv recs st0 Hfit Hbelow) as Hinv.
  pose proof (scanRecords_published recs st0 Hfit) as Hmore.
  destruct (scanRecords recs st0) as [st|[e st]]; simpl in Hinv, Hmore.
  - destruct Hinv as (new & Hmsgs & _ & HM & _ & _ & Hge & Hnew & Hb').
    destruct Hmore as (Hkeep & Hcoll & Hser).
    assert (log_inv (scan_logger st)) as Hl1.
    { split; [exact Hb'|]. rewrite HM. split; [exact Hsorted|]. auto. }
    assert (log_inv
              {| Messages := (Messages (scan_logger st) ++ scan_msgs st)%list;
                 published := published (scan_logger st);
                 file := (io.Write (file (scan_logger st)) p).2;
                 Logger_serial := Logger_serial (scan_logger st) |}) as Hl2.
    { split; [exact Hb'|]. simpl. rewrite HM, Hmsgs. simpl. split.
      - apply StronglySorted_app_2; [|exact Hsorted|exact Hnew].
        intros a b Ha Hb.
        apply Hpub in Ha. unfold serials_below in Hbelow.
        rewrite Forall_forall in Hbelow, Hge.
        specialize (Hbelow a Ha). specialize (Hge b Hb). simpl in Hge. lia.
      - intros m Hm. apply elem_of_app in Hm as [Hm|Hm]; [auto|].
        destruct (Hcoll m) as [Hin|Hin];
          [rewrite Hmsgs; exact Hm|inversion Hin|exact Hin]. }
    destruct derr as [e|]; [split; [exact Hl1|exact Hser]|].
    destruct (io.Write (file (scan_logger st)) p) as [[cnt werr] f].
    simpl in Hl2. destruct werr; (split; [exact Hl2|exact Hser]).
  - destruct Hinv as (_ & HM & _ & Hb').
    destruct Hmore as (Hkeep & _ & Hser).
    split; [|exact Hser].
    split; [exact Hb'|]. simpl. rewrite HM. split; [exact Hsorted|auto].
Qed.

Lemma Writes_log_inv (ps : list (list Byte.byte)) : forall (l : Logger F) ids,
  (Logger_serial l + N.of_nat (records ps) < 2 ^ 64)%N ->
  log_inv l ->
  log_inv (Writes ps l ids).1.
Proof.
  induction ps as [|p ps IH]; intros l ids Hfit Hinv; [exact Hinv|].
  unfold records in Hfit. rewrite fmap_cons in Hfit. simpl list_sum in Hfit.
  fold (records ps) in Hfit.
  destruct (Write_log_inv p l ids ltac:(lia) Hinv) as [Hinv' Hser].
  simpl. destruct (logging.Write p l ids) as [[res l'] ids']. simpl in *.
  apply IH; [lia|exact Hinv'].
Qed.

(** X29.  In a logger made by [NewLogger], after any sequence of writes
    that steps through fewer than [2^64] records, whatever each write
    returned: the messages are in strictly increasing order of serial, so
    that a serial names one message, each message has been published, and
    each serial is below the logger's next one. *)
Theorem Messages_sorted_by_serial (ps : list (list Byte.byte)) (f : F)
    (ids : resource.ID) :
  (N.of_nat (records ps) < 2 ^ 64)%N ->
  let l := (Writes ps (NewLogger f) ids).1 in
  StronglySorted (fun a b => (serial a < serial b)%N) (Messages l)
  /\ forall m, m ∈ Messages l ->
       m ∈ published l /\ (serial m < Logger_serial l)%N.
Proof.
  intros Hfit l.
  assert (log_inv l) as (Hbelow & Hsorted & Hpub).
  { apply Writes_log_inv; [simpl; lia|].
    split; [constructor|]. split; [constructor|]. intros m Hm. inversion Hm. }
  split; [exact Hsorted|]. intros m Hm. split; [auto|].
  unfold serials_below in Hbelow. rewrite Forall_forall in Hbelow. auto.
Qed.

Lemma scanKeyvals_parses (rec : logfmt.record) : forall msg,
  times_parse rec -> exists msg', scanKeyvals msg rec = inl msg'.
Proof.
  induction rec as [|[key value] rest IH]; intros msg Hok; simpl; [eauto|].
  inversion Hok as [|? ? Hkv Hrest]; subst.
  destruct (String.eqb_spec key "time") as [->|Hne].
  - destruct (Hkv eq_refl) as [t Ht]. simpl in Ht. rewrite Ht. apply IH, Hrest.
  - destruct (String.eqb key "level"); [apply IH, Hrest|].
    destruct (String.eqb key "msg"); apply IH, Hrest.
Qed.

Lemma scanRecords_parses (recs : list logfmt.record) : forall st : scanning (F:=F),
  Forall times_parse recs ->
  exists st', scanRecords recs st = inl st'
    /\ Messages (scan_logger st') = Messages (scan_logger st)
    /\ file (scan_logger st') = file (scan_logger st)
    /\ length (published (scan_logger st'))
       = (length (published (scan_logger st)) + length recs)%nat.
Proof.
  induction recs as [|rec rest IH]; intros st Hok.
  - exists st. simpl. repeat split. lia.
  - inversion Hok as [|? ? Hrec Hrest]; subst. simpl scanRecords.
    match goal with |- context [scanKeyvals ?msg0 rec] =>
      destruct (scanKeyvals_parses rec msg0 Hrec) as [msg ->]
    end.
    match goal with |- context [scanRecords rest ?x] =>
      destruct (IH x Hrest) as (st' & -> & HM & Hf & Hlen)
    end.
    exists st'. simpl in *. repeat split; try assumption. lia.
Qed.

(** X30.  When the decoder ends in an error after records whose times all
    parse, [Write] returns that error with count 0 and leaves [Messages]
    and the file alone, yet it has published one message per record on the
    broker: subscribers see messages that the logger never keeps. *)
Theorem Write_decode_error_publishes (p : list Byte.byte) (l : Logger F)
    (ids : resource.ID) (recs : list logfmt.record) (err : error) :
  logfmt.Decode p = (recs, Some err) ->
  Forall times_parse recs ->
  let l' := (logging.Write p l ids).1.2 in
  (logging.Write p l ids).1.1 = (0, Some err)
  /\ Messages l' = Messages l
  /\ file l' = file l
  /\ length (published l') = (length (published l) + length recs)%nat.
Proof.
  intros Hdec Hok. unfold logging.Write. rewrite Hdec.
  destruct (scanRecords_parses recs
              {| scan_logger := l; scan_ids := ids; scan_msgs := [] |} Hok)
    as (st' & -> & HM & Hf & Hlen).
  simpl in *. repeat split; assumption.
Qed.

End Facts.

End logging_sequence_facts.

(** ** What a write returns *)

Module logging_write_facts.
Import logging.

Section Facts.
Context {F : Type} `{io.Writer F} `{logfmt.Decoder} `{TimeParser}.



End Facts.

End logging_write_facts.

Module logging_write_scenarios.
Import logging scenario.

(** A logger that has taken a good line and a line with a bad time, and
    then takes two lines at once, or the bad line once more. *)
Example Writes_started_bad_time :
  Writes [started; bad_time] (NewLogger (Some [])) 10%nat
  = ({| Messages :=
          [ {| Time := 1706781600; Level := "info"; Msg := "started";
               Attributes := [ {| Key := "run"; Value := "rxx" |} ];
               Resource := resource.mkResource 10%nat resource.Log "" None;
               serial := 0%N |} ];
        published :=
          [ {| Time := 1706781600; Level := "info"; Msg := "started";
               Attributes := [ {| Key := "run"; Value := "rxx" |} ];
               Resource := resource.mkResource 10%nat resource.Log "" None;
               serial := 0%N |} ];
        file := Some started;
        Logger_serial := 1%N |},
     12%nat).
Proof. vm_compute. reflexivity. Qed.

(** Where the range of the counter ends: the serial after [2^64 - 1] is 0. *)
Example serials_at_the_wrap :
  serials_from 18446744073709551615%N 2 = [18446744073709551615%N; 0%N].
Proof. reflexivity. Qed.



End logging_write_scenarios.

(** ** The further properties on the small installation *)

Module more_scenarios.
Import scenario.

Lemma newRun_MkdirAll_error_witness :
  exists w', run.newRun mod0 ws0 plan_only guarded_world
             = (run.Err "permission denied", w')
             /\ run.dirs w' = ["infra/.pug"; "infra"]
             /\ (forall d, d ∈ run.dirs guarded_world -> d ∈ run.dirs w')
             /\ run.events w' = run.events guarded_world.
Proof.
  exact (run_creation_facts.newRun_MkdirAll_error mod0 ws0 plan_only
           guarded_world mod_resource "permission denied"
           (run.MkdirAll "infra/.pug/dev/rxx" guarded_world).2
           eq_refl eq_refl).
Defined.

Lemma newRun_makes_directory_witness :
  exists modpath dir,
    run.ModulePath run0 = Some modpath
    /\ run.PugDirectory run0 = Some dir
    /\ run.dir_name (filepath.Join [modpath; dir]) ∈ run.dirs world1
    /\ (forall d, d ∈ run.dirs world0 -> d ∈ run.dirs world1)
    /\ (forall d, d ∈ run.dirs world1 ->
          d ∈ run.dirs world0
          \/ d ∈ run.dir_name <$> filepath.Join [modpath; dir]
                                   :: run.parents (filepath.Join [modpath; dir]))
    /\ run.ticks world1 = S (S (run.ticks world0))
    /\ run.events world1 = run.events world0.
Proof.
  exact (run_creation_facts.newRun_makes_directory mod0 ws0 plan_only world0
           run0 world1 eq_refl).
Defined.

(** The directories [os.MkdirAll] makes for the first run, where none was
    there: the directory of the run and its three parents. *)
Example MkdirAll_makes_parents :
  run.parents "infra/.pug/dev/rxx" = ["infra/.pug/dev/"; "infra/.pug/"; "infra/"]
  /\ run.MkdirAll "infra/.pug/dev/rxx" world0
     = (None,
        {| run.next_id := 2%nat;
           run.clock := run.clock world0;
           run.ticks := 0%nat;
           run.mkdir_error := run.mkdir_error world0;
           run.dirs := ["infra/.pug/dev/rxx"; "infra/.pug/dev"; "infra/.pug"; "infra"];
           run.events := [] |})
  /\ run.dirs (run.MkdirAll "infra/.pug/dev/rxx" world1).2 = run.dirs world1.
Proof. repeat split. Qed.

Lemma newRun_without_module_panics_witness :
  exists w', run.newRun mod0 orphan plan_only world0 = (run.Panicked, w')
             /\ run.dirs w' = run.dirs world0.
Proof.
  exact (run_creation_facts.newRun_without_module_panics mod0 orphan plan_only
           world0 eq_refl).
Defined.

Lemma newRun_fresh_directory_witness :
  run.PugDirectory run0 = Some ".pug/dev/rxx"
  /\ run.PugDirectory run1 = Some ".pug/dev/rxxx"
  /\ ".pug/dev/rxx" <> ".pug/dev/rxxx".
Proof.
  split; [reflexivity|]. split; [reflexivity|].
  exact (run_creation_facts.newRun_fresh_directory
           mod0 ws0 plan_only world0 run0 world1
           mod0 ws0 plan_only world1 run1
           (run.newRun mod0 ws0 plan_only world1).2
           ".pug/dev/rxx" ".pug/dev/rxxx"
           run_scenarios.id_string_plain run_scenarios.id_string_inj
           eq_refl (le_n _) eq_refl eq_refl eq_refl).
Defined.

Lemma move_highlights_row_witness :
  table.cursor (table.MoveDown max_int three_entities) = 0
  /\ table.rows (table.MoveDown max_int three_entities) = table.rows three_entities
  /\ 0 <= table.cursor (table.MoveDown max_int three_entities)
       < table.len (table.rows three_entities)
  /\ exists r,
       table.rows three_entities
         !! Z.to_nat (table.cursor (table.MoveDown max_int three_entities))
       = Some r
       /\ table.Highlighted (table.MoveDown max_int three_entities)
          = (table.Entity r, true).
Proof.
  split; [reflexivity|].
  refine (table_cursor_facts.move_highlights_row three_entities max_int _
            (table.MoveDown max_int three_entities)
            (or_intror (or_intror eq_refl))).
  discriminate.
Defined.

(** The cursor and the viewport at the bounds of an [int]: one row down
    from the second of three rows is the third, [max_int] rows down wraps
    around to the first; and a viewport of height [max_int] ends at the
    cursor. *)
Example moves_at_the_bounds :
  table.cursor (table.MoveDown 1 three_entities) = 2
  /\ table.cursor (table.MoveDown max_int three_entities) = 0
  /\ table.cursor (table.MoveUp min_int three_entities) = 0
  /\ table.end_
       (table.UpdateViewport
          (table.set_cursor 1
             {| table.rows := table.rows three_entities;
                table.cursor := 1;
                table.focus := true;
                table.items := table.items three_entities;
                table.Selected := ∅;
                table.selectable := true;
                table.selectAll := false;
                table.viewport_Height := max_int;
                table.start := 0;
                table.end_ := 3 |})) = 1.
Proof. repeat split. Qed.

Lemma move_on_empty_table_witness :
  table.cursor (table.MoveUp 1 no_entities) = -1
  /\ table.Highlighted (table.MoveUp 1 no_entities) = (table.zero, false)
  /\ table.ToggleSelection (table.MoveUp 1 no_entities) = table.MoveUp 1 no_entities.
Proof.
  exact (table_cursor_facts.move_on_empty_table no_entities 1 eq_refl
           (table.MoveUp 1 no_entities) (or_intror (or_introl eq_refl))).
Defined.


Lemma ToggleSelectAll_selects_rows_witness :
  table.Selected (table.ToggleSelectAll entities) !! table.ID dev = Some dev
  /\ table.selectAll (table.ToggleSelectAll entities) = true
  /\ table.Selected (table.ToggleSelectAll (table.ToggleSelectAll entities)) = ∅.
Proof.
  pose proof (table_cursor_facts.ToggleSelectAll_selects_rows entities
                eq_refl eq_refl) as (_ & _ & Hall & Hnone).
  split; [reflexivity|]. split; [exact Hall|exact Hnone].
Defined.

Lemma SelectRange_returns_witness :
  exists m', table_kv.SelectRange (grid 2 {[ 1%nat := "a" ]}) = table_kv.Returned m'.
Proof.
  apply table_kv_range_facts.SelectRange_returns.
  - simpl. lia.
  - apply Exists_cons_hd. exists "a". reflexivity.
Defined.

Example SelectRange_grid :
  table_kv.SelectRange (grid 2 {[ 1%nat := "a" ]})
  = table_kv.Returned
      (table_kv.select_rows [row 2 "b"; row 3 "c"]
         (grid 2 {[ 1%nat := "a" ]})).
Proof. reflexivity. Qed.

Lemma SelectRange_only_adds_witness :
  table_kv.rows (table_kv.select_rows [row 2 "b"; row 3 "c"]
                   (grid 2 {[ 1%nat := "a" ]}))
  = table_kv.rows (grid 2 {[ 1%nat := "a" ]})
  /\ table_kv.cursor (table_kv.select_rows [row 2 "b"; row 3 "c"]
                        (grid 2 {[ 1%nat := "a" ]})) = 2.
Proof.
  pose proof (table_kv_range_facts.SelectRange_only_adds
                (grid 2 {[ 1%nat := "a" ]})
                (table_kv.select_rows [row 2 "b"; row 3 "c"]
                   (grid 2 {[ 1%nat := "a" ]}))
                SelectRange_grid) as (Hrows & Hcur & _).
  split; [exact Hrows|exact Hcur].
Defined.

Lemma SelectRange_below_witness :
  table_kv.SelectRange (grid 3 {[ 1%nat := "a" ]})
  = table_kv.Returned
      (table_kv.select_rows [row 2 "b"; row 3 "c"; row 4 "d"]
         (grid 3 {[ 1%nat := "a" ]})).
Proof.
  refine (table_kv_range_facts.SelectRange_below (grid 3 {[ 1%nat := "a" ]})
            [] [row 2 "b"; row 3 "c"] [] (row 1 "a") (row 4 "d")
            eq_refl eq_refl eq_refl _ _ _).
  - discriminate.
  - exists "a". reflexivity.
  - repeat constructor.
Defined.

Lemma SelectRange_above_witness :
  table_kv.SelectRange (grid 0 {[ 3%nat := "c" ]})
  = table_kv.Returned
      (table_kv.select_rows [row 1 "a"; row 2 "b"]
         (grid 0 {[ 3%nat := "c" ]})).
Proof.
  refine (table_kv_range_facts.SelectRange_above (grid 0 {[ 3%nat := "c" ]})
            [] [row 2 "b"] [row 4 "d"] (row 1 "a") (row 3 "c")
            eq_refl eq_refl eq_refl _ _).
  - exists "c". reflexivity.
  - repeat constructor.
Defined.

Lemma SelectRange_adjacent_witness :
  exists m', table_kv.SelectRange (grid 1 {[ 1%nat := "a" ]}) = table_kv.Returned m'
             /\ table_kv.Selected m' = {[ 1%nat := "a" ]}
             /\ table_kv.Selected m' !! 2%nat = None.
Proof.
  refine (table_kv_range_facts.SelectRange_adjacent (grid 1 {[ 1%nat := "a" ]})
            [] [row 3 "c"; row 4 "d"] (row 1 "a") (row 2 "b")
            eq_refl eq_refl eq_refl _ _).
  - exists "a". reflexivity.
  - repeat constructor.
Defined.

Lemma ToggleSelection_current_row_witness :
  table_kv.Selected (table_kv.ToggleSelection (grid 1 ∅)) = <[2%nat := "b"]> ∅
  /\ table_kv.Selected (table_kv.ToggleSelection (table_kv.ToggleSelection (grid 1 ∅)))
     = ∅.
Proof.
  exact (table_kv_compose_facts.ToggleSelection_current_row (grid 1 ∅) (row 2 "b")
           eq_refl eq_refl eq_refl).
Defined.

Lemma ToggleSelectionByKey_item_witness :
  table_kv.Selected (table_kv.ToggleSelectionByKey 2%nat hidden_selected) = ∅
  /\ table_kv.Selected (table_kv.ToggleSelectionByKey 2%nat filtered)
     = <[2%nat := "prod"]> ∅
  /\ table_kv.rows (table_kv.ToggleSelectionByKey 2%nat filtered)
     = table_kv.rows filtered.
Proof.
  pose proof (table_kv_compose_facts.ToggleSelectionByKey_item filtered 2%nat
                eq_refl eq_refl) as Hitem.
  change (table_kv.items filtered !! 2%nat) with (Some "prod") in Hitem.
  destruct Hitem as (Hsel & Hrows & Hback).
  split; [exact Hback|]. split; [exact Hsel|exact Hrows].
Defined.

Lemma ToggleSelectAll_selects_keys_witness :
  table_kv.Selected (table_kv.ToggleSelectAll (grid 0 ∅)) !! 3%nat = Some "c"
  /\ table_kv.Selected (table_kv.ToggleSelectAll (table_kv.ToggleSelectAll (grid 0 ∅)))
     = ∅.
Proof.
  pose proof (table_kv_compose_facts.ToggleSelectAll_selects_keys (grid 0 ∅)
                eq_refl eq_refl) as (_ & _ & Hnone).
  split; [reflexivity|exact Hnone].
Defined.

Lemma SelectRange_after_SetItems_witness :
  exists m',
    table_kv.SelectRange
      (table_kv.SetItems (fun cell => cell) names (grid 3 {[ 1%nat := "a" ]}))
    = table_kv.Returned m'.
Proof.
  apply table_kv_compose_facts.SelectRange_after_SetItems. simpl. lia.
Defined.

Lemma SelectRange_panics_after_move_on_empty_witness :
  table_kv.cursor
    (table_kv.SetItems (fun cell => cell) names
       (table_kv.MoveDown 1 (table_kv.New render_name 80 24))) = -1
  /\ table_kv.SelectRange
       (table_kv.ToggleSelectAll
          (table_kv.SetItems (fun cell => cell) names
             (table_kv.MoveDown 1 (table_kv.New render_name 80 24))))
     = table_kv.Panicked.
Proof.
  pose proof (table_kv_compose_facts.SelectRange_panics_after_move_on_empty
                (fun cell => cell) (table_kv.New render_name 80 24) 1 names
                eq_refl eq_refl eq_refl eq_refl
                ltac:(intros Hempty; apply (f_equal (fun m => m !! 1%nat)) in Hempty;
                      discriminate Hempty))
    as (_ & Hcur & _ & Hpanic).
  split; [exact Hcur|exact Hpanic].
Defined.

Lemma Messages_sorted_by_serial_witness :
  StronglySorted (fun a b => (logging.serial a < logging.serial b)%N)
    (logging.Messages
       (logging.Writes [started; bad_time; started] (logging.NewLogger (Some [])) 10%nat).1)
  /\ length (logging.Messages
               (logging.Writes [started; bad_time; started]
                  (logging.NewLogger (Some [])) 10%nat).1) = 2%nat.
Proof.
  split; [|vm_compute; reflexivity].
  refine (proj1 (logging_sequence_facts.Messages_sorted_by_serial
                   [started; bad_time; started] (Some []) 10%nat _)).
  vm_compute. reflexivity.
Defined.

Lemma Write_decode_error_publishes_witness :
  (logging.Write bad_field (logging.NewLogger (Some [])) 10%nat).1.1
  = (0, Some "unexpected '='")
  /\ logging.Messages (logging.Write bad_field (logging.NewLogger (Some [])) 10%nat).1.2
     = []
  /\ logging.file (logging.Write bad_field (logging.NewLogger (Some [])) 10%nat).1.2
     = Some []
  /\ length (logging.published
               (logging.Write bad_field (logging.NewLogger (Some [])) 10%nat).1.2)
     = 1%nat.
Proof.
  refine (logging_sequence_facts.Write_decode_error_publishes bad_field
            (logging.NewLogger (Some [])) 10%nat [[("level", "info")]]
            "unexpected '='" _ _).
  - vm_compute. reflexivity.
  - repeat constructor. simpl. discriminate.
Defined.

End more_scenarios.
